(** * events.Emitter of dragon-mud: a shallow embedding

    The development follows [events/emitter.go].  Go maps are reference
    values, so [Data] payloads live in an explicit store and are passed
    around by address; that is what makes "copy" and "alias" different
    things and is what the deep-copy statements are about.

    Conventions of the embedding:
    - a [Data] (or [map[string]interface{}]) value is a reference
      [ref := option loc]; [None] is Go's nil map;
    - the store is a bump allocator: [make] appends an empty map at index
      [length store];
    - [for k, v := range d] visits the entries in the order of
      [map_to_list] (Go leaves the order unspecified);
    - unbounded recursion (a Go stack overflow, which is fatal) is
      modelled by fuel: [None] means the fuel ran out, and a call
      diverges when it is [None] for every amount of fuel;
    - the [sync.RWMutex] is not modelled: operations are atomic steps,
      the goroutine spawned by [Emit] is a [task] value that is run by
      [run_task] at some later point, against the emitter as it is then;
    - a handler is a total function on the store: it may rewrite any
      map, it returns, and it does not call back into the emitter;
    - values that are not maps are leaves; [copyData] shares them as
      they are.

    Parts IV and V go beyond the emitter's dispatch protocol: more of
    [events/emitter.go] ([Off], the copy where it works, what a dispatch
    leaves of the registry), and the helpers of the Lua engine that can
    be told apart from the interpreter ([toSnake], the [require] of
    [SecureRequire], [configureFromOptions], [loggerForEngine], the
    result loop of [Engine.Call]); what these call in Go's library, in
    the interpreter or in the file system is a parameter. *)

From stdpp Require Import gmap strings list fin_maps.

Open Scope string_scope.
Open Scope list_scope.

(** * Part I: the program, and the vocabulary of the statements *)

(** ** Data *)

Abbreviation loc := nat.
Abbreviation ref := (option nat).

(** The dynamic type of an [interface{}] value stored in a [Data]: the
    type switch of [copyData] tells [Data] from [map[string]interface{}]
    and treats everything else alike. *)
Inductive value :=
  | VLeaf (z : Z)
  | VData (r : ref)
  | VMap (r : ref).

Global Instance value_eq_dec : EqDecision value.
Proof. solve_decision. Defined.

Abbreviation dmap := (gmap string value).
Abbreviation store := (list (gmap string value)).

(** Reading a map by reference; ranging over a nil map sees no entry. *)
Definition deref (h : store) (r : ref) : dmap :=
  match r with
  | Some l => default ∅ (h !! l)
  | None => ∅
  end.

(** [make(Data)] *)
Definition make (h : store) : loc * store := (length h, h ++ [∅]).

(** [m[k] = v] on the map at address [l] *)
Definition store_key (h : store) (l : loc) (k : string) (v : value) : store :=
  alter (fun m => <[k:=v]> m) l h.

Definition is_leaf (v : value) : bool :=
  match v with VLeaf _ => true | _ => false end.

Definition is_data (v : value) : bool :=
  match v with VData _ => true | _ => false end.

(** The body of the [range] loop of [copyData], with the recursive call
    abstracted as [rec]. *)
Fixpoint copy_range (rec : ref -> store -> option (loc * store))
    (d : ref) (nd : loc) (kvs : list (string * value)) (h : store)
    : option store :=
  match kvs with
  | [] => Some h
  | (k, v) :: rest =>
      match v with
      | VData _ =>
          (* case Data: nd[k] = copyData(d) *)
          match rec d h with
          | Some (c, h1) => copy_range rec d nd rest (store_key h1 nd k (VData (Some c)))
          | None => None
          end
      | VMap t =>
          (* case map[string]interface{}: nd[k] = copyData(Data(t)) *)
          match rec t h with
          | Some (c, h1) => copy_range rec d nd rest (store_key h1 nd k (VData (Some c)))
          | None => None
          end
      | VLeaf _ =>
          (* default: nd[k] = v *)
          copy_range rec d nd rest (store_key h nd k v)
      end
  end.

Fixpoint copyData (fuel : nat) (d : ref) (h : store) : option (loc * store) :=
  match fuel with
  | O => None
  | S n =>
      let '(nd, h0) := make h in
      match copy_range (copyData n) d nd (map_to_list (deref h d)) h0 with
      | Some h1 => Some (nd, h1)
      | None => None
      end
  end.

(** [NewData()] *)
Definition NewData (h : store) : loc * store := make h.

(** ** Errors, handlers, observable events *)

(** [ErrHalt] is compared by identity ([err == ErrHalt]); every other
    error value is identified by its message. *)
Inductive error :=
  | ErrHalt
  | ErrOther (msg : string).

(** A [Handler] is anything with a [Call(Data) error] method.  The
    method may mutate every map of the store; [hid] names the handler in
    the trace. *)
Record Handler := {
  hid : nat;
  Call : ref -> store -> store * option error;
}.

Inductive level := LDebug | LWarn | LError.

(** What an outside observer sees: a handler invoked under a registry key
    with a payload reference (with the entries that payload had when the
    handler was entered, and the error the handler returned), a log line
    with its structured fields, a value written to a completion channel. *)
Inductive event :=
  | EInvoke (key : string) (h : nat) (arg : ref) (seen : dmap) (ret : option error)
  | ELog (lv : level) (msg : string) (evt : string) (data : ref) (err : option string)
  | ESend (c : nat).

Record world := {
  heap : store;
  trace : list event;
  chans : list nat;   (* per channel: values written so far *)
}.

Definition invoke (key : string) (h : Handler) (d : ref) (w : world)
    : world * option error :=
  let '(hp, err) := Call h d (heap w) in
  ({| heap := hp;
      trace := trace w ++ [EInvoke key (hid h) d (deref (heap w) d) err];
      chans := chans w |}, err).

(** ** HandlerSet *)

(** Modelled from the spec: the entry type of the [handlers] sequence
    (its file is not among the sources).  Section 3: a Handler plus a
    boolean consume-after-first-call flag. *)
Record entry := {
  handler : Handler;
  once : bool;
}.

(** Modelled from the spec: the [handlers] type behind [*handlers] (its
    file is not among the sources).  Section 4.1: an ordered sequence of
    entries, each a handler with a consume-after-first-call flag. *)
Abbreviation HandlerSet := (list entry).

(** Modelled from the spec: [newHandlers], the empty sequence. *)
Definition newHandlers : HandlerSet := [].

(** Modelled from the spec: [add] appends a persistent entry at the end. *)
Definition add (hs : HandlerSet) (h : Handler) : HandlerSet :=
  hs ++ [{| handler := h; once := false |}].

(** Modelled from the spec: [addOnce] appends a once-flagged entry at the
    end. *)
Definition addOnce (hs : HandlerSet) (h : Handler) : HandlerSet :=
  hs ++ [{| handler := h; once := true |}].

(** Modelled from the spec: [clear] empties the sequence. *)
Definition clear (hs : HandlerSet) : HandlerSet := [].

(** Modelled from the spec: [call] invokes each entry in insertion order
    with the same payload reference, stops at the first non-nil error and
    returns it; a once-flagged entry is dropped from the sequence once it
    has been called, also when it is the one that failed.  Entries after
    a failing one are neither called nor dropped.  The [key] argument
    only labels the trace. *)
Fixpoint call (key : string) (hs : HandlerSet) (d : ref) (w : world)
    : HandlerSet * world * option error :=
  match hs with
  | [] => ([], w, None)
  | en :: rest =>
      let '(w1, err) := invoke key (handler en) d w in
      let kept := if once en then [] else [en] in
      match err with
      | Some x => (kept ++ rest, w1, Some x)
      | None =>
          let '(rest', w2, err') := call key rest d w1 in
          (kept ++ rest', w2, err')
      end
  end.

(** ** Emitter *)

Record Emitter := {
  handlers : gmap string HandlerSet;
  log : bool;                         (* e.log != nil *)
  oneTimeEmissions : gmap string ref;
}.

Definition NewEmitter (l : bool) : Emitter :=
  {| handlers := ∅; log := l; oneTimeEmissions := ∅ |}.

Definition set_handlers (e : Emitter) (evt : string) (hs : HandlerSet) : Emitter :=
  {| handlers := <[evt:=hs]> (handlers e);
     log := log e;
     oneTimeEmissions := oneTimeEmissions e |}.

Definition set_oneTime (e : Emitter) (evt : string) (d : ref) : Emitter :=
  {| handlers := handlers e;
     log := log e;
     oneTimeEmissions := <[evt:=d]> (oneTimeEmissions e) |}.

Definition with_heap (w : world) (h : store) : world :=
  {| heap := h; trace := trace w; chans := chans w |}.

(** [e.log.WithFields(...).Level(msg)] behind its [e.log != nil] guard *)
Definition logf (e : Emitter) (lv : level) (msg : string) (evt : string)
    (d : ref) (err : option string) (w : world) : world :=
  if log e
  then {| heap := heap w; trace := trace w ++ [ELog lv msg evt d err]; chans := chans w |}
  else w.

(** The set [hs] that [On] and [Once] work on: the registered one, or a
    new one stored under [evt]. *)
Definition handlers_for (e : Emitter) (evt : string) : Emitter * HandlerSet :=
  match handlers e !! evt with
  | Some hs => (e, hs)
  | None => (set_handlers e evt newHandlers, newHandlers)
  end.

Definition On (fuel : nat) (e : Emitter) (evt : string) (h : Handler) (w : world)
    : option (Emitter * world) :=
  let '(e1, hs) := handlers_for e evt in
  let e2 := set_handlers e1 evt (add hs h) in
  match oneTimeEmissions e2 !! evt with
  | Some data =>
      match copyData fuel data (heap w) with
      | Some (c, hp) =>
          let '(w1, _) := invoke evt h (Some c) (with_heap w hp) in
          Some (e2, w1)
      | None => None
      end
  | None => Some (e2, w)
  end.

Definition Once (fuel : nat) (e : Emitter) (evt : string) (h : Handler) (w : world)
    : option (Emitter * world) :=
  match oneTimeEmissions e !! evt with
  | Some data =>
      match copyData fuel data (heap w) with
      | Some (c, hp) =>
          let '(w1, _) := invoke evt h (Some c) (with_heap w hp) in
          Some (e, w1)
      | None => None
      end
  | None =>
      let '(e1, hs) := handlers_for e evt in
      Some (set_handlers e1 evt (addOnce hs h), w)
  end.

Definition off (e : Emitter) (evt : string) : Emitter :=
  match handlers e !! evt with
  | Some hs => set_handlers e evt (clear hs)
  | None => e
  end.

Definition Off (e : Emitter) (evt : string) : Emitter :=
  off (off (off e ("before:" ++ evt)%string) evt) ("after:" ++ evt)%string.

Definition emit (e : Emitter) (evt : string) (d : ref) (w : world)
    : Emitter * world * option error :=
  match handlers e !! evt with
  | Some hs =>
      let '(hs', w1, err) := call evt hs d w in
      (set_handlers e evt hs', w1, err)
  | None => (e, w, None)
  end.

(** The goroutine started by [Emit]: the event, the (copied) payload and
    the completion channel it closes over. *)
Record task := {
  t_evt : string;
  t_data : ref;
  t_done : nat;
}.

(** [make(chan struct{}, 1)] *)
Definition make_chan (w : world) : nat * world :=
  (length (chans w),
   {| heap := heap w; trace := trace w; chans := chans w ++ [0] |}).

(** [done <- struct{}{}]; the buffer of size one takes the task's only
    write without a receiver. *)
Definition chan_send (c : nat) (w : world) : world :=
  {| heap := heap w; trace := trace w ++ [ESend c]; chans := alter S c (chans w) |}.

Definition msg_meta : string :=
  "Cannot emit meta events 'before' or 'after' directly.".
Definition msg_halt : string := "Event emission halted.".
Definition msg_fail : string := "Failed during execution of event handlers.".

(** The three phases of the goroutine body, up to the error they end
    with. *)
Definition dispatch (e : Emitter) (evt : string) (d : ref) (w : world)
    : Emitter * world * option error :=
  let '(e1, w1, err1) := emit e ("before:" ++ evt)%string d w in
  let '(e2, w2, err2) :=
    match err1 with
    | None => emit e1 evt d w1
    | Some _ => (e1, w1, err1)
    end in
  match err2 with
  | None => emit e2 ("after:" ++ evt)%string d w2
  | Some _ => (e2, w2, err2)
  end.

(** The goroutine body of [Emit], run against the emitter as it is when
    the task gets scheduled. *)
Definition run_task (e : Emitter) (t : task) (w : world) : Emitter * world :=
  let '(e3, w3, err) := dispatch e (t_evt t) (t_data t) w in
  let w4 :=
    match err with
    | Some ErrHalt => logf e LDebug msg_halt (t_evt t) (t_data t) None w3
    | Some (ErrOther m) => logf e LError msg_fail (t_evt t) (t_data t) (Some m) w3
    | None => w3
    end in
  (e3, chan_send (t_done t) w4).

Definition Emit (fuel : nat) (e : Emitter) (evt : string) (d : ref) (w : world)
    : option (nat * task * world) :=
  let w1 :=
    if String.prefix "before:" evt || String.prefix "after:" evt
    then logf e LWarn msg_meta evt d None w
    else w in
  let copied :=
    match d with
    | None => Some (NewData (heap w1))
    | Some _ => copyData fuel d (heap w1)
    end in
  match copied with
  | Some (c, hp) =>
      let '(done, w2) := make_chan (with_heap w1 hp) in
      Some (done, {| t_evt := evt; t_data := Some c; t_done := done |}, w2)
  | None => None
  end.

Definition EmitOnce (fuel : nat) (e : Emitter) (evt : string) (d : ref) (w : world)
    : option (nat * task * Emitter * world) :=
  match copyData fuel d (heap w) with
  | Some (c, hp) =>
      let e1 := set_oneTime e ("before:" ++ evt)%string (Some c) in
      let e2 := set_oneTime e1 evt (Some c) in
      let e3 := set_oneTime e2 ("after:" ++ evt)%string (Some c) in
      match Emit fuel e3 evt (Some c) (with_heap w hp) with
      | Some (done, t, w1) => Some (done, t, e3, w1)
      | None => None
      end
  | None => None
  end.

(** ** Reading traces *)

(** The handler invocations of a trace: registry key, handler, payload
    reference. *)
Definition calls (tr : list event) : list (string * nat * ref) :=
  omap (fun ev =>
          match ev with
          | EInvoke key h arg _ _ => Some (key, h, arg)
          | _ => None
          end) tr.

(** What the invoked handlers returned, in order. *)
Definition rets (tr : list event) : list (option error) :=
  omap (fun ev =>
          match ev with
          | EInvoke _ _ _ _ ret => Some ret
          | _ => None
          end) tr.

(** What handlers observed: key, handler, entries of the payload. *)
Definition observed (tr : list event) : list (string * nat * dmap) :=
  omap (fun ev =>
          match ev with
          | EInvoke key h _ seen _ => Some (key, h, seen)
          | _ => None
          end) tr.

Definition is_invocation (ev : event) : Prop :=
  match ev with EInvoke _ _ _ _ _ => True | _ => False end.

(** The invocations a HandlerSet prefix stands for. *)
Definition tagged (key : string) (d : ref) (hs : HandlerSet)
    : list (string * nat * ref) :=
  map (fun en => (key, hid (handler en), d)) hs.

(** ** Shapes of payloads *)

(** Every value of the map behind [r] is a non-map value. *)
Definition flat (h : store) (r : ref) : Prop :=
  forall k v, deref h r !! k = Some v -> is_leaf v = true.

(** A finite tree of plain [map[string]interface{}] values below [r], of
    height at most [n], all of it allocated in [h]. *)
Fixpoint plain (h : store) (n : nat) (r : ref) : Prop :=
  match r with
  | None => True
  | Some l =>
      l < length h /\
      forall k v, deref h r !! k = Some v ->
        match v with
        | VLeaf _ => True
        | VData _ => False
        | VMap t =>
            match n with
            | O => False
            | S m => plain h m t
            end
        end
  end.

(** ** What a returned copy looks like *)

(** A recursive call only ever appends to the store. *)
Definition appends (rec : ref -> store -> option (loc * store)) : Prop :=
  forall r h c h', rec r h = Some (c, h') ->
    c = length h /\ h `prefix_of` h' /\ length h < length h'.

(** [deep_copy lo hi h h' n r c]: the map at [c] in [h'] has the keys of
    the map behind [r] in [h]; non-map values are the same, and under
    every key that held a plain map there is a [Data] whose map is again
    such a copy.  Every map of the copy sits at an address in
    [lo .. hi-1]. *)
Fixpoint deep_copy (lo hi : nat) (h h' : store) (n : nat) (r : ref) (c : loc) : Prop :=
  lo <= c /\ c < hi /\
  forall k,
    match deref h r !! k with
    | None => deref h' (Some c) !! k = None
    | Some (VLeaf z) => deref h' (Some c) !! k = Some (VLeaf z)
    | Some (VData _) => False
    | Some (VMap t) =>
        match n with
        | O => False
        | S m => exists c', deref h' (Some c) !! k = Some (VData (Some c'))
                            /\ deep_copy lo hi h h' m t c'
        end
    end.

(** [rec] copies the plain-map children found in the map behind [r]. *)
Definition copies_children (rec : ref -> store -> option (loc * store))
    (h : store) (r : ref) (m : nat) : Prop :=
  forall k t hc, deref h r !! k = Some (VMap t) -> h `prefix_of` hc ->
    exists h1, rec t hc = Some (length hc, h1)
               /\ deep_copy (length hc) (length h1) h h1 m t (length hc).

Definition put (m : dmap) (kv : string * value) : dmap := <[kv.1:=kv.2]> m.

(** ** The registry keys of an event *)

Definition before_key (evt : string) : string := ("before:" ++ evt)%string.
Definition after_key (evt : string) : string := ("after:" ++ evt)%string.

(** The three registry keys under which [EmitOnce(evt, _)] caches. *)
Definition cache_keys (evt : string) : list string :=
  [before_key evt; evt; after_key evt].

(** The HandlerSet registered under a key, empty when there is none. *)
Definition set_of (e : Emitter) (key : string) : HandlerSet :=
  default [] (handlers e !! key).

Definition entry_of (o : bool) (h : Handler) : entry := {| handler := h; once := o |}.

(** ** Runs of a HandlerSet *)

(** [ran key d hs n err tr]: [tr] is what a dispatch leaves in the trace
    when it invoked the first [n] entries of [hs] and ended with [err]:
    only invocations, in the order of the sequence, every one but the
    last returned nil, and the last returned [err]. *)
Definition ran (key : string) (d : ref) (hs : HandlerSet) (n : nat)
    (err : option error) (tr : list event) : Prop :=
  n <= length hs
  /\ length tr = n
  /\ calls tr = tagged key d (take n hs)
  /\ match err with
     | None => n = length hs /\ rets tr = replicate n None
     | Some x => exists m, n = S m /\ rets tr = replicate m None ++ [Some x]
     end.

(** What is left of a sequence after its first [n] entries were called. *)
Definition remaining (hs : HandlerSet) (n : nat) : HandlerSet :=
  filter (fun en => once en = false) (take n hs) ++ drop n hs.

(** [chain e evt d err tb tm ta]: the three trace segments of a dispatch
    of [evt] against the sets registered in [e], and the error it ends
    with.  A phase that ends with an error leaves the later segments
    empty. *)
Definition chain (e : Emitter) (evt : string) (d : ref) (err : option error)
    (tb tm ta : list event) : Prop :=
  exists nb eb,
    ran (before_key evt) d (set_of e (before_key evt)) nb eb tb
    /\ match eb with
       | Some x => tm = [] /\ ta = [] /\ err = Some x
       | None =>
           exists nm em,
             ran evt d (set_of e evt) nm em tm
             /\ match em with
                | Some x => ta = [] /\ err = Some x
                | None =>
                    exists na, ran (after_key evt) d (set_of e (after_key evt)) na err ta
                end
       end.

(** Several dispatches of one HandlerSet, one per payload, with no
    registration in between. *)
Fixpoint call_many (key : string) (hs : HandlerSet) (ds : list ref) (w : world)
    : HandlerSet * world :=
  match ds with
  | [] => (hs, w)
  | d :: rest =>
      let '(hs1, w1, _) := call key hs d w in
      call_many key hs1 rest w1
  end.

(** Registering a list of persistent handlers, in order. *)
Fixpoint On_all (fuel : nat) (e : Emitter) (evt : string) (hl : list Handler) (w : world)
    : option (Emitter * world) :=
  match hl with
  | [] => Some (e, w)
  | h :: rest =>
      match On fuel e evt h w with
      | Some (e1, w1) => On_all fuel e1 evt rest w1
      | None => None
      end
  end.

(** ** Log lines *)

(** The log line [Emit] writes for a meta event name. *)
Definition meta_warning (e : Emitter) (evt : string) (d : ref) : list event :=
  if String.prefix "before:" evt || String.prefix "after:" evt
  then (if log e then [ELog LWarn msg_meta evt d None] else [])
  else [].

(** The log line a task writes for the error its dispatch ended with. *)
Definition outcome_log (e : Emitter) (t : task) (err : option error) : list event :=
  match err with
  | Some ErrHalt =>
      if log e then [ELog LDebug msg_halt (t_evt t) (t_data t) None] else []
  | Some (ErrOther m) =>
      if log e then [ELog LError msg_fail (t_evt t) (t_data t) (Some m)] else []
  | None => []
  end.

(** ** Cached one-time emissions *)

(** [(e, w)] is a state in which the entry that a returned
    [EmitOnce(evt, d)] cached under [key] is still in place: the call
    started in [(e0, w0)] and returned in [(e1, w1)], the cached map
    sits at [length (heap w0)], and since then the store has only grown
    and the cached map has kept its entries. *)
Definition still_cached (e0 : Emitter) (w0 : world) (evt : string) (d : ref)
    (key : string) (e : Emitter) (w : world) : Prop :=
  exists fuel0 c0 t0 e1 w1,
    EmitOnce fuel0 e0 evt d w0 = Some (c0, t0, e1, w1)
    /\ key ∈ cache_keys evt
    /\ oneTimeEmissions e !! key = oneTimeEmissions e1 !! key
    /\ length (heap w1) <= length (heap w)
    /\ deref (heap w) (Some (length (heap w0))) = deref (heap w1) (Some (length (heap w0))).

(** ** Handlers and states used in the examples *)

Definition h_ok (n : nat) : Handler :=
  {| hid := n; Call := fun _ hp => (hp, None) |}.
Definition h_halt (n : nat) : Handler :=
  {| hid := n; Call := fun _ hp => (hp, Some ErrHalt) |}.
Definition h_fail (n : nat) : Handler :=
  {| hid := n; Call := fun _ hp => (hp, Some (ErrOther "boom")) |}.
(** a handler that writes [seen = 1] into its payload *)
Definition h_mark (n : nat) : Handler :=
  {| hid := n;
     Call := fun d hp =>
       (match d with Some l => store_key hp l "seen" (VLeaf 1) | None => hp end, None) |}.

Definition w_empty : world := {| heap := []; trace := []; chans := [] |}.

(** one payload [{"user": 7}] at address 0, another [{"user": 8}] at 1 *)
Definition w_users : world :=
  {| heap := [ {[ "user" := VLeaf 7 ]}; {[ "user" := VLeaf 8 ]} ];
     trace := []; chans := [] |}.

(** a payload [{"user": 7, "pos": Data{"x": 1}}] at address 0 *)
Definition h_nested : store :=
  [ {[ "user" := VLeaf 7; "pos" := VData (Some 1) ]}; {[ "x" := VLeaf 1 ]} ].

(** A registry with one handler per phase of ["x"]; the main one halts. *)
Definition e_halting : Emitter :=
  {| handlers := {[ "before:x" := [entry_of false (h_ok 3)];
                    "x" := [entry_of false (h_halt 1)];
                    "after:x" := [entry_of false (h_ok 2)] ]};
     log := true;
     oneTimeEmissions := ∅ |}.

Definition t_x : task := {| t_evt := "x"; t_data := Some 0; t_done := 0 |}.
Definition w_x : world := {| heap := [∅]; trace := []; chans := [0] |}.

(** One handler under each key that [Emit("before:x", d)] dispatches. *)
Definition e_meta : Emitter :=
  {| handlers := {[ "before:before:x" := [entry_of false (h_ok 1)];
                    "before:x" := [entry_of false (h_ok 2)];
                    "after:before:x" := [entry_of false (h_ok 3)] ]};
     log := true;
     oneTimeEmissions := ∅ |}.

Definition t_meta : task := {| t_evt := "before:x"; t_data := Some 0; t_done := 0 |}.
Definition w_meta : world :=
  {| heap := [∅]; trace := [ELog LWarn msg_meta "before:x" None None]; chans := [0] |}.

(** [EmitOnce("startup", {"user": 7})] on a new emitter. *)
Definition t_startup : task := {| t_evt := "startup"; t_data := Some 3; t_done := 0 |}.
Definition e_startup : Emitter :=
  {| handlers := ∅; log := false;
     oneTimeEmissions := {[ "before:startup" := Some 2; "startup" := Some 2;
                            "after:startup" := Some 2 ]} |}.
Definition w_startup : world :=
  {| heap := heap w_users ++ [ {[ "user" := VLeaf 7 ]}; {[ "user" := VLeaf 7 ]} ];
     trace := []; chans := [0] |}.

Definition e_login : Emitter :=
  {| handlers := {[ "login" := [entry_of false (h_ok 1); entry_of false (h_mark 2);
                                entry_of false (h_ok 3)] ]};
     log := true;
     oneTimeEmissions := ∅ |}.


(** ** States used in the further examples *)

(** a payload [{"a": map{"x": 1}, "n": 3}] at address 0, its nested
    plain map at address 1 *)
Definition h_tree : store :=
  [ {[ "a" := VMap (Some 1); "n" := VLeaf 3 ]}; {[ "x" := VLeaf 1 ]} ].

Definition w_tree : world := {| heap := h_tree; trace := []; chans := [] |}.

(** [h_tree] after [copyData] of the payload at 0: the copy at 2, the
    copy of the nested map at 3, now of the [Data] type *)
Definition h_tree_copied : store :=
  h_tree ++ [ {[ "a" := VData (Some 3); "n" := VLeaf 3 ]}; {[ "x" := VLeaf 1 ]} ].

(** The persistent entries of a sequence, in order. *)
Definition persistent_entries (hs : HandlerSet) : HandlerSet :=
  filter (fun en => once en = false) hs.

(** a registry for ["x"]: a persistent handler, a once handler that
    fails, another persistent one; and a once handler under ["after:x"] *)
Definition e_mixed : Emitter :=
  {| handlers := {[ "x" := [entry_of false (h_ok 1); entry_of true (h_fail 2);
                            entry_of false (h_ok 3)];
                    "after:x" := [entry_of true (h_ok 4)] ]};
     log := true;
     oneTimeEmissions := ∅ |}.

(** [e'] is [e] after some dispatches: same cache and Logger, the same
    keys registered, and under every key the same persistent entries,
    of a sequence that has at most lost entries. *)
Definition shrinks_only (e e' : Emitter) : Prop :=
  oneTimeEmissions e' = oneTimeEmissions e
  /\ log e' = log e
  /\ forall key,
       persistent_entries (set_of e' key) = persistent_entries (set_of e key)
       /\ set_of e' key `sublist_of` set_of e key
       /\ (is_Some (handlers e' !! key) <-> is_Some (handlers e !! key)).

(** ** Vocabulary for the further properties of the emitter *)

(** The payload references of the invocations of a trace. *)
Definition payloads (tr : list event) : list ref := (calls tr).*2.

(** ** Runs of tasks, and the store along a dispatch *)

(** What was appended to the trace between the states [w] and [w']. *)
Definition segment (w w' : world) : list event :=
  drop (length (trace w)) (trace w').

(** The tasks [ts] run one after the other, with no registration in
    between: each one runs against the registry the one before left. *)
Fixpoint run_tasks (e : Emitter) (ts : list task) (w : world) : Emitter * world :=
  match ts with
  | [] => (e, w)
  | t :: rest =>
      let '(e1, w1) := run_task e t w in
      run_tasks e1 rest w1
  end.

(** The handler [id] has exactly one entry in [hs], a once entry. *)
Definition sole_once (hs : HandlerSet) (id : nat) : Prop :=
  exists i en,
    hs !! i = Some en /\ once en = true /\ hid (handler en) = id
    /\ forall j en', hs !! j = Some en' -> hid (handler en') = id -> j = i.

(** The handler [id] has no entry in [hs]. *)
Definition no_entry (hs : HandlerSet) (id : nat) : Prop :=
  forall en, en ∈ hs -> hid (handler en) <> id.

(** The invocations of a trace that are not the handler [id] under the
    key [key]. *)
Definition never_invokes (key : string) (id : nat) (tr : list event) : Prop :=
  Forall (fun x : string * nat * ref => ~ (x.1.1 = key /\ x.1.2 = id)) (calls tr).

(** The store after the handlers of [hs] were called in order on the
    payload [d], each one on the store the one before returned. *)
Fixpoint heap_after (hs : HandlerSet) (d : ref) (h : store) : store :=
  match hs with
  | [] => h
  | en :: rest => heap_after rest d (Call (handler en) d h).1
  end.

(** The entries of the payload [d] that each handler of [hs] finds when
    it is called, the handlers being called in order and each one on the
    store the one before returned. *)
Fixpoint seen_by (hs : HandlerSet) (d : ref) (h : store) : list dmap :=
  match hs with
  | [] => []
  | en :: rest => deref h d :: seen_by rest d (Call (handler en) d h).1
  end.

(** The payload entries found by the invocations of a trace, in order. *)
Definition sights (tr : list event) : list dmap := (observed tr).*2.

(** The entries a dispatch of [evt] invokes when it calls the first
    [nb], [nm] and [na] entries of the three HandlerSets. *)
Definition invoked_entries (e : Emitter) (evt : string) (nb nm na : nat) : HandlerSet :=
  take nb (set_of e (before_key evt)) ++ take nm (set_of e evt)
  ++ take na (set_of e (after_key evt)).

(** ** More states used in the examples *)

(** the payload [{"user": 7, "pos": Data{"x": 1}}] of [h_nested] *)
Definition w_nested : world := {| heap := h_nested; trace := []; chans := [] |}.

(** [e_startup] and [w_startup] after [On("startup", h7)]: the handler
    is registered and was replayed with a copy, at address 4, of the
    cached payload. *)
Definition e_replayed : Emitter :=
  {| handlers := {[ "startup" := [entry_of false (h_ok 7)] ]}; log := false;
     oneTimeEmissions := {[ "before:startup" := Some 2; "startup" := Some 2;
                            "after:startup" := Some 2 ]} |}.
Definition w_replayed : world :=
  {| heap := heap w_startup ++ [ {[ "user" := VLeaf 7 ]} ];
     trace := [EInvoke "startup" 7 (Some 4) {[ "user" := VLeaf 7 ]} None];
     chans := [0] |}.

(** ** The Lua engine: [toSnake]

    The function works on the runes of its argument.  The three
    functions of Go's [unicode] package that it calls are parameters;
    a rune is its code point. *)

Section unicode.

Variables (IsUpper IsLower : Z -> bool) (ToLower : Z -> Z).

(** [runes[i]], for [i] in range *)
Definition rune_at (runes : list Z) (i : nat) : Z := default 0%Z (runes !! i).

(** The condition of the [if] in the loop of [toSnake]. *)
Definition snake_boundary (runes : list Z) (i : nat) : bool :=
  (0 <? i)%nat && IsUpper (rune_at runes i)
  && (((i + 1 <? length runes)%nat && IsLower (rune_at runes (i + 1)))
      || IsLower (rune_at runes (i - 1))).

(** One turn of the loop: [out] after index [i]. *)
Definition snake_step (runes : list Z) (out : list Z) (i : nat) : list Z :=
  let out := if snake_boundary runes i then out ++ [95%Z] else out in
  out ++ [ToLower (rune_at runes i)].

Definition toSnake (runes : list Z) : list Z :=
  foldl (snake_step runes) [] (seq 0 (length runes)).

(** What the turn for index [i] appends. *)
Definition snake_piece (runes : list Z) (i : nat) : list Z :=
  (if snake_boundary runes i then [95%Z] else []) ++ [ToLower (rune_at runes i)].

End unicode.

(** The three functions on the ASCII range, where Go's agree with them. *)
Definition ascii_IsUpper (r : Z) : bool := (65 <=? r)%Z && (r <=? 90)%Z.
Definition ascii_IsLower (r : Z) : bool := (97 <=? r)%Z && (r <=? 122)%Z.
Definition ascii_ToLower (r : Z) : Z := if ascii_IsUpper r then (r + 32)%Z else r.

Definition runes_of (s : string) : list Z :=
  map (fun a => Z.of_nat (Ascii.nat_of_ascii a)) (String.list_ascii_of_string s).

Definition toSnake_ascii (s : string) : list Z :=
  toSnake ascii_IsUpper ascii_IsLower ascii_ToLower (runes_of s).

(** ** The Lua engine: the [require] of [SecureRequire] *)

(** [strings.Replace(s, old, new, -1)] for a one-byte [old] *)
Fixpoint replace_byte (old : Ascii.ascii) (new : string) (s : string) : string :=
  match s with
  | EmptyString => EmptyString
  | String c rest =>
      if Ascii.eqb c old
      then (new ++ replace_byte old new rest)%string
      else String c (replace_byte old new rest)
  end.

(** the bytes ["?"] and ["."] *)
Definition byte_question : Ascii.ascii := Ascii.ascii_of_nat 63.
Definition byte_dot : Ascii.ascii := Ascii.ascii_of_nat 46.

(** How a call of the [require] function ends: [ArgumentError] and
    [RaiseError] do not return, the two other ends return 1 with the
    loaded chunk pushed. *)
Inductive require_outcome :=
  | ReqArgumentError
  | ReqLoaded (fpath : string)
  | ReqLoadError (fpath : string) (err : string)
  | ReqNotFound (name : string).

Section secure_require.

(** [os.Stat(fpath)] without error; the error of [eng.LoadFile(fpath)] *)
Variables (stat_ok : string -> bool) (LoadFile : string -> option string).

(** The loop over [validPaths]. *)
Fixpoint require_search (name : string) (paths : list string) : require_outcome :=
  match paths with
  | [] => ReqNotFound name
  | path :: rest =>
      let fpath := replace_byte byte_question name path in
      if stat_ok fpath
      then match LoadFile fpath with
           | Some err => ReqLoadError fpath err
           | None => ReqLoaded fpath
           end
      else require_search name rest
  end.

(** [arg] is the string on top of the stack, [None] for an empty stack. *)
Definition require (validPaths : list string) (arg : option string) : require_outcome :=
  match arg with
  | None => ReqArgumentError
  | Some m => require_search (replace_byte byte_dot "/" m) validPaths
  end.

End secure_require.

(** ** The Lua engine: [configureFromOptions] *)

(** The values [FieldNaming] and [MethodNaming] are switched on; a value
    that is none of the three named constants matches no case. *)
Inductive naming :=
  | SnakeCaseExportedNames
  | SnakeCaseNames
  | ExportedNames
  | OtherNaming.

Global Instance naming_eq_dec : EqDecision naming.
Proof. solve_decision. Defined.

Record EngineOptions := {
  OpenLibs : bool;
  FieldNaming : naming;
  MethodNaming : naming;
}.

(** What [config.FieldNames] or [config.MethodNames] is set to: nil, the
    function through [toSnake], the function that keeps the name. *)
Inductive names_fn := NamesNil | NamesSnake | NamesKeep.

(** The engine as [configureFromOptions] changes it: how often
    [OpenLibs] was called, and the two fields of the luar configuration
    ([None]: as luar set them up). *)
Record engine_config := {
  openLibsCalls : nat;
  FieldNames : option names_fn;
  MethodNames : option names_fn;
}.

Definition apply_naming (n : naming) (cur : option names_fn) : option names_fn :=
  match n with
  | SnakeCaseExportedNames => Some NamesNil
  | SnakeCaseNames => Some NamesSnake
  | ExportedNames => Some NamesKeep
  | OtherNaming => cur
  end.

(** The body of the [for] loop; [openedLibs] is the local flag. *)
Definition configure_step (openedLibs : bool) (c : engine_config) (opt : EngineOptions)
    : engine_config :=
  let calls :=
    if negb openedLibs && OpenLibs opt then S (openLibsCalls c) else openLibsCalls c in
  {| openLibsCalls := calls;
     FieldNames := apply_naming (FieldNaming opt) (FieldNames c);
     MethodNames := apply_naming (MethodNaming opt) (MethodNames c) |}.

(** [openedLibs := false] is never assigned again. *)
Definition configureFromOptions (c : engine_config) (options : list EngineOptions)
    : engine_config :=
  let openedLibs := false in
  foldl (configure_step openedLibs) c options.

(** The last option whose naming is one of the three named constants. *)
Definition last_naming (sel : EngineOptions -> naming) (options : list EngineOptions)
    : option naming :=
  last (filter (fun n => n <> OtherNaming) (map sel options)).

(** ** The Lua engine: [loggerForEngine] *)

(** What [eng.Meta] holds under a key, as far as the two type assertions
    of [loggerForEngine] tell: a [logger.Log], a string, anything else. *)
Inductive meta_value (L : Type) :=
  | MLog (l : L)
  | MString (s : string)
  | MOther.

Arguments MLog {L} l.
Arguments MString {L} s.
Arguments MOther {L}.

Section logger_for_engine.

(** the loggers, [logger.NewWithSource], and the two keys of package
    [keys] *)
Variables (L : Type) (NewWithSource : string -> L) (key_Logger key_EngineID : string).

Definition loggerForEngine (meta : gmap string (meta_value L))
    : L * gmap string (meta_value L) :=
  match meta !! key_Logger with
  | Some (MLog l) => (l, meta)
  | _ =>
      let name :=
        match meta !! key_EngineID with
        | Some (MString n) => n
        | _ => "engine(unknown)"
        end in
      let l := NewWithSource name in
      (l, <[key_Logger := MLog l]> meta)
  end.

End logger_for_engine.

(** ** The Lua engine: [Engine.Call]

    The Lua stack is a list with its top at the end.  [ValueFor] on the
    Go parameters and the interpreter's [CallByParam] are parameters; a
    [*Value] is the Lua value it wraps, [ValueFor] giving back a Lua
    value it is handed. *)

Section engine_call.

Variables (GoVal LVal : Type) (LNil : LVal) (ValueFor : GoVal -> LVal)
  (CallByParam : string -> nat -> list LVal -> list LVal -> option string * list LVal).

(** [e.state.Get(-1)]: the top of the stack, nil on an empty stack *)
Definition stack_top (st : list LVal) : LVal := default LNil (last st).

(** [e.state.Pop(1)]; [None] when the stack is empty and the interpreter
    raises *)
Definition stack_pop (st : list LVal) : option (list LVal) :=
  match st with
  | [] => None
  | _ => Some (take (length st - 1) st)
  end.

(** The loop [for i := retCount - 1; i >= 0; i--], with [k = i + 1]. *)
Fixpoint collect_returns (k : nat) (retVals : list (option LVal)) (st : list LVal)
    : option (list (option LVal) * list LVal) :=
  match k with
  | O => Some (retVals, st)
  | S i =>
      match stack_pop st with
      | Some st' => collect_returns i (<[i := Some (stack_top st)]> retVals) st'
      | None => None
      end
  end.

Inductive call_result :=
  | CallError (err : string)
  | CallReturns (retVals : list (option LVal))
  | CallRaises.

Definition Engine_Call (name : string) (retCount : nat) (params : list GoVal)
    (st : list LVal) : call_result * list LVal :=
  let luaParams := map ValueFor params in
  match CallByParam name retCount luaParams st with
  | (Some err, st1) => (CallError err, st1)
  | (None, st1) =>
      match collect_returns retCount (replicate retCount None) st1 with
      | Some (retVals, st2) => (CallReturns retVals, st2)
      | None => (CallRaises, st1)
      end
  end.

End engine_call.

Arguments CallError {LVal} err.
Arguments CallReturns {LVal} retVals.
Arguments CallRaises {LVal}.

(** * Part II: facts about the program *)

(** ** The copy on two small stores *)

Example copyData_flat_example :
  copyData 1 (Some 0) [ {[ "user" := VLeaf 7 ]} ]
  = Some (1, [ {[ "user" := VLeaf 7 ]}; {[ "user" := VLeaf 7 ]} ]).
Proof. vm_compute. reflexivity. Qed.

Example copyData_plain_example :
  copyData 2 (Some 0) [ {[ "a" := VMap (Some 1) ]}; {[ "x" := VLeaf 1 ]} ]
  = Some (2, [ {[ "a" := VMap (Some 1) ]}; {[ "x" := VLeaf 1 ]};
               {[ "a" := VData (Some 3) ]}; {[ "x" := VLeaf 1 ]} ]).
Proof. vm_compute. reflexivity. Qed.

(** ** The store under [copyData] *)

Section copy_store.

Implicit Types (h : store) (d r : ref) (nd : loc) (kvs : list (string * value)).

Lemma deref_prefix h h' l :
  h `prefix_of` h' -> l < length h -> deref h' (Some l) = deref h (Some l).
Proof.
  intros Hp Hl. unfold deref. by rewrite <- (prefix_lookup_lt h h' l Hl Hp).
Qed.

Lemma deref_is_Some_alloc h l k v :
  deref h (Some l) !! k = Some v -> l < length h.
Proof.
  unfold deref. destruct (h !! l) as [m|] eqn:E.
  - intros _. by eapply lookup_lt_Some.
  - simpl. by rewrite lookup_empty.
Qed.

Lemma store_key_prefix h0 h nd k v :
  h0 `prefix_of` h -> length h0 <= nd -> h0 `prefix_of` store_key h nd k v.
Proof.
  intros [ext ->] Hle. unfold store_key.
  rewrite alter_app_r_alt by done. by eexists.
Qed.

Lemma store_key_length h nd k v : length (store_key h nd k v) = length h.
Proof. unfold store_key. apply length_alter. Qed.

Lemma store_key_deref_eq h nd k v :
  nd < length h ->
  deref (store_key h nd k v) (Some nd) = <[k:=v]> (deref h (Some nd)).
Proof.
  intros Hlt. unfold store_key, deref. rewrite list_lookup_alter_eq.
  destruct (lookup_lt_is_Some_2 h nd Hlt) as [m ->]. done.
Qed.

Lemma store_key_deref_ne h nd l k v :
  l <> nd -> deref (store_key h nd k v) (Some l) = deref h (Some l).
Proof.
  intros Hne. unfold store_key, deref. by rewrite list_lookup_alter_ne.
Qed.

Lemma copy_range_prefix rec d nd kvs :
  appends rec ->
  forall h0 h h', h0 `prefix_of` h -> length h0 <= nd ->
    copy_range rec d nd kvs h = Some h' -> h0 `prefix_of` h'.
Proof.
  intros Hrec. induction kvs as [|[k v] rest IH]; intros h0 h h' Hp Hle; simpl.
  - by intros [= <-].
  - destruct v as [z|t|t].
    + apply IH; [by apply store_key_prefix | done].
    + destruct (rec d h) as [[c h1]|] eqn:E; [|done].
      apply Hrec in E as (_ & Hp1 & _).
      apply IH; [|done]. apply store_key_prefix; [|done]. by etrans.
    + destruct (rec t h) as [[c h1]|] eqn:E; [|done].
      apply Hrec in E as (_ & Hp1 & _).
      apply IH; [|done]. apply store_key_prefix; [|done]. by etrans.
Qed.

Lemma copy_range_length rec d nd kvs :
  appends rec ->
  forall h h', copy_range rec d nd kvs h = Some h' -> length h <= length h'.
Proof.
  intros Hrec. induction kvs as [|[k v] rest IH]; intros h h'; simpl.
  - by intros [= <-].
  - destruct v as [z|t|t].
    + intros E. apply IH in E. by rewrite store_key_length in E.
    + destruct (rec d h) as [[c h1]|] eqn:E1; [|done].
      apply Hrec in E1 as (_ & _ & Hlt). intros E. apply IH in E.
      rewrite store_key_length in E. lia.
    + destruct (rec t h) as [[c h1]|] eqn:E1; [|done].
      apply Hrec in E1 as (_ & _ & Hlt). intros E. apply IH in E.
      rewrite store_key_length in E. lia.
Qed.

Lemma copyData_appends fuel : appends (copyData fuel).
Proof.
  induction fuel as [|n IH]; intros r h c h'; simpl; [done|].
  destruct (copy_range (copyData n) r (length h) (map_to_list (deref h r)) (h ++ [∅]))
    as [h1|] eqn:E; [|done].
  intros [= <- <-]. split; [done|]. split.
  - eapply (copy_range_prefix _ _ _ _ IH h); [by apply prefix_app_r|done|exact E].
  - apply (copy_range_length _ _ _ _ IH) in E.
    rewrite length_app in E. simpl in E. lia.
Qed.

(** *** The [case Data] branch never returns *)

Lemma copy_range_diverges rec d nd kvs base :
  appends rec ->
  (forall h1, base `prefix_of` h1 -> rec d h1 = None) ->
  length base <= nd ->
  (exists k v, (k, v) ∈ kvs /\ is_data v = true) ->
  forall h, base `prefix_of` h -> copy_range rec d nd kvs h = None.
Proof.
  intros Hrec Hdiv Hle. induction kvs as [|[k v] rest IH]; intros Hin h Hp; simpl.
  - destruct Hin as (k & v & Hin & _). by apply elem_of_nil in Hin.
  - destruct v as [z|t|t].
    + apply IH; [|by apply store_key_prefix].
      destruct Hin as (k' & v' & Hin & Hd). apply elem_of_cons in Hin as [[= -> ->]|Hin];
        [done|eauto].
    + by rewrite Hdiv.
    + destruct (rec t h) as [[c h1]|] eqn:E; [|done].
      apply Hrec in E as (_ & Hp1 & _).
      apply IH; [|apply store_key_prefix; [by etrans|done]].
      destruct Hin as (k' & v' & Hin & Hd). apply elem_of_cons in Hin as [[= -> ->]|Hin];
        [done|eauto].
Qed.

Lemma copyData_diverges h d k t :
  deref h d !! k = Some (VData t) -> forall fuel, copyData fuel d h = None.
Proof.
  intros Hk fuel. revert h Hk. induction fuel as [|n IH]; intros h Hk; simpl; [done|].
  destruct d as [l|]; [|by unfold deref in Hk; rewrite lookup_empty in Hk].
  pose proof (deref_is_Some_alloc _ _ _ _ Hk) as Hl.
  rewrite (copy_range_diverges (copyData n) (Some l) (length h) _ h); first done.
  - apply copyData_appends.
  - intros h1 Hp. apply IH. by rewrite (deref_prefix h h1 l Hp Hl).
  - done.
  - exists k, (VData t). split; [|done]. by apply elem_of_map_to_list.
  - by apply prefix_app_r.
Qed.

End copy_store.

(** ** What a returned copy looks like *)

Section copy_result.

Implicit Types (h : store) (d r : ref) (nd : loc) (kvs : list (string * value)).

Lemma deep_copy_widen lo hi lo' hi' h h' n r c :
  lo' <= lo -> hi <= hi' ->
  deep_copy lo hi h h' n r c -> deep_copy lo' hi' h h' n r c.
Proof.
  intros Hlo Hhi. revert r c. induction n as [|m IH]; intros r c (H1 & H2 & H3);
    (split; [lia|split; [lia|]]); intros k; specialize (H3 k);
    destruct (deref h r !! k) as [[z|t|t]|]; try done.
  destruct H3 as (c' & Hc & Hd). exists c'. split; [done|]. by apply IH.
Qed.

Lemma deep_copy_stable lo hi h h1 h2 n r c :
  (forall l, lo <= l -> l < hi -> h2 !! l = h1 !! l) ->
  deep_copy lo hi h h1 n r c -> deep_copy lo hi h h2 n r c.
Proof.
  intros Hag. revert r c. induction n as [|m IH]; intros r c (H1 & H2 & H3);
    (split; [done|split; [done|]]); intros k; specialize (H3 k);
    assert (Hc : deref h2 (Some c) = deref h1 (Some c))
      by (unfold deref; by rewrite Hag);
    destruct (deref h r !! k) as [[z|t|t]|]; rewrite ?Hc; try done.
  destruct H3 as (c' & Hc' & Hd). exists c'. split; [done|]. by apply IH.
Qed.

Lemma copy_range_result rec h r nd m kvs :
  appends rec ->
  copies_children rec h r m ->
  length h <= nd ->
  NoDup kvs.*1 ->
  (forall k v, (k, v) ∈ kvs -> deref h r !! k = Some v /\ is_data v = false) ->
  forall hc, h `prefix_of` hc -> nd < length hc ->
    exists h',
      copy_range rec r nd kvs hc = Some h'
      /\ length hc <= length h'
      /\ (forall l, l <> nd -> l < length hc -> h' !! l = hc !! l)
      /\ (forall k, k ∉ kvs.*1 -> deref h' (Some nd) !! k = deref hc (Some nd) !! k)
      /\ (forall k v, (k, v) ∈ kvs ->
            match v with
            | VLeaf z => deref h' (Some nd) !! k = Some (VLeaf z)
            | VData _ => False
            | VMap t => exists c', deref h' (Some nd) !! k = Some (VData (Some c'))
                                   /\ deep_copy (S nd) (length h') h h' m t c'
            end).
Proof.
  intros Hrec Hch Hnd. induction kvs as [|[k v] rest IH]; intros Hnodup Hsrc hc Hp Hlt.
  - exists hc. simpl. repeat split; try done.
    intros k v Hin. by apply elem_of_nil in Hin.
  - simpl in Hnodup. apply NoDup_cons in Hnodup as [Hk Hnodup].
    assert (Hsrc' : forall k0 v0, (k0, v0) ∈ rest ->
                      deref h r !! k0 = Some v0 /\ is_data v0 = false).
    { intros k0 v0 Hin. apply Hsrc. by apply list_elem_of_further. }
    destruct (Hsrc k v) as [Hkv Hnd']; [by apply list_elem_of_here|].
    destruct v as [z|t|t]; [|done|].
    + (* default: nd[k] = v *)
      destruct (IH Hnodup Hsrc' (store_key hc nd k (VLeaf z))) as (h' & E & Hlen & Hfr & Hno & Hin).
      { by apply store_key_prefix. }
      { by rewrite store_key_length. }
      exists h'. simpl. rewrite store_key_length in Hlen.
      split; [done|]. split; [done|]. split; [|split].
      * intros l Hl Hl'. rewrite Hfr by (by rewrite ?store_key_length).
        unfold store_key. by rewrite list_lookup_alter_ne.
      * intros k' Hk'. apply not_elem_of_cons in Hk' as [Hne Hk'].
        rewrite Hno by done. rewrite store_key_deref_eq by done.
        by rewrite lookup_insert_ne.
      * intros k' v' Hin'. apply elem_of_cons in Hin' as [[= -> ->]|Hin']; [|by apply Hin].
        rewrite Hno by done. rewrite store_key_deref_eq by done.
        by rewrite lookup_insert_eq.
    + (* case map[string]interface{}: nd[k] = copyData(Data(t)) *)
      destruct (Hch k t hc Hkv Hp) as (h1 & E1 & Hd1).
      pose proof (Hrec _ _ _ _ E1) as (_ & Hp1 & Hlt1).
      set (h2 := store_key h1 nd k (VData (Some (length hc)))).
      destruct (IH Hnodup Hsrc' h2) as (h' & E & Hlen & Hfr & Hno & Hin).
      { apply store_key_prefix; [by etrans|done]. }
      { unfold h2. rewrite store_key_length. lia. }
      unfold h2 in Hlen, Hfr. rewrite store_key_length in Hlen, Hfr.
      exists h'. simpl. rewrite E1. fold h2.
      split; [done|]. split; [lia|]. split; [|split].
      * intros l Hl Hl'. rewrite Hfr by (done || lia).
        unfold store_key. rewrite list_lookup_alter_ne by done.
        symmetry. by apply prefix_lookup_lt.
      * intros k' Hk'. apply not_elem_of_cons in Hk' as [Hne Hk'].
        rewrite Hno by done. unfold h2. rewrite store_key_deref_eq by lia.
        rewrite lookup_insert_ne by done.
        by rewrite (deref_prefix hc h1 nd Hp1 Hlt).
      * intros k' v' Hin'. apply elem_of_cons in Hin' as [[= -> ->]|Hin']; [|by apply Hin].
        exists (length hc). split.
        -- rewrite Hno by done. unfold h2. rewrite store_key_deref_eq by lia.
           by rewrite lookup_insert_eq.
        -- apply (deep_copy_widen (length hc) (length h1)); [lia|lia|].
           apply (deep_copy_stable _ _ _ h1); [|done].
           intros l Hl Hl'. rewrite Hfr by lia.
           unfold store_key. rewrite list_lookup_alter_ne by lia. done.
Qed.

End copy_result.

Section copy_plain.

Implicit Types (h : store) (d r : ref).

Lemma plain_prefix h hc n r : plain h n r -> h `prefix_of` hc -> plain hc n r.
Proof.
  intros Hpl Hp. revert r Hpl. induction n as [|m IH]; intros [l|] Hpl; try done;
    destruct Hpl as [Hl Hpl]; (split; [apply prefix_length in Hp; lia|]);
    intros k v; rewrite (deref_prefix h hc l Hp Hl); intros Hk;
    specialize (Hpl k v Hk); destruct v as [z|t|t]; try done.
  by apply IH.
Qed.

Lemma deref_plain_prefix h hc n r :
  plain h n r -> h `prefix_of` hc -> deref hc r = deref h r.
Proof.
  destruct r as [l|]; [|done]. destruct n; intros [Hl _] Hp; by apply deref_prefix.
Qed.

Lemma deep_copy_source lo hi h hc h' n r c :
  plain h n r -> h `prefix_of` hc ->
  deep_copy lo hi hc h' n r c -> deep_copy lo hi h h' n r c.
Proof.
  intros Hpl Hp. revert r c Hpl. induction n as [|m IH]; intros r c Hpl (H1 & H2 & H3);
    (split; [done|split; [done|]]); intros k; specialize (H3 k);
    rewrite (deref_plain_prefix h hc _ r Hpl Hp) in H3;
    destruct (deref h r !! k) as [[z|t|t]|] eqn:Hk; try done.
  destruct H3 as (c' & Hc & Hd). exists c'. split; [done|]. apply IH; [|done].
  destruct r as [l|]; [|by unfold deref in Hk; rewrite lookup_empty in Hk].
  destruct Hpl as [_ Hpl]. apply (Hpl k _ Hk).
Qed.

(** A payload made of plain maps only is copied, with fuel one above its
    height: the call returns a new map, and the copy lives entirely in
    the part of the store allocated by the call. *)
Lemma copyData_plain n :
  forall h r, plain h n r ->
    exists h', copyData (S n) r h = Some (length h, h')
               /\ h `prefix_of` h'
               /\ deep_copy (length h) (length h') h h' n r (length h).
Proof.
  induction n as [|m IH]; intros h r Hpl.
  - destruct (copy_range_result (copyData 0) h r (length h) 0 (map_to_list (deref h r)))
      with (hc := h ++ [∅]) as (h' & E & Hlen & Hfr & Hno & Hin).
    + apply copyData_appends.
    + intros k t hc Hk _. destruct r as [l|];
        [|by unfold deref in Hk; rewrite lookup_empty in Hk].
      destruct Hpl as [_ Hpl]. by apply (Hpl k _) in Hk.
    + done.
    + apply NoDup_fst_map_to_list.
    + intros k v Hin. apply elem_of_map_to_list in Hin. split; [done|].
      destruct v as [z|t|t]; try done. destruct r as [l|];
        [|by unfold deref in Hin; rewrite lookup_empty in Hin].
      destruct Hpl as [_ Hpl]. by apply (Hpl k _) in Hin.
    + by apply prefix_app_r.
    + rewrite length_app. simpl. lia.
    + exists h'. change (copyData 1 r h) with
        (match copy_range (copyData 0) r (length h) (map_to_list (deref h r)) (h ++ [∅]) with
         | Some h1 => Some (length h, h1) | None => None end).
      rewrite E. split; [done|].
      rewrite length_app in Hlen. simpl in Hlen.
      split.
      { eapply (copy_range_prefix _ _ _ _ (copyData_appends 0) h); [|done|exact E].
        by apply prefix_app_r. }
      split; [done|]. split; [lia|]. intros k.
      destruct (deref h r !! k) as [v|] eqn:Hk.
      * pose proof Hk as Hk'. apply elem_of_map_to_list in Hk'. specialize (Hin k v Hk').
        destruct v as [z|t|t]; try done. destruct r as [l|];
          [|by unfold deref in Hk; rewrite lookup_empty in Hk].
        destruct Hpl as [_ Hpl]. by apply (Hpl k _) in Hk.
      * rewrite Hno.
        -- unfold deref. rewrite lookup_app_r by done. rewrite Nat.sub_diag. simpl.
           apply lookup_empty.
        -- intros Hin'. apply list_elem_of_fmap in Hin' as ([k' v'] & -> & Hin').
           apply elem_of_map_to_list in Hin'. simpl in Hk. congruence.
  - destruct (copy_range_result (copyData (S m)) h r (length h) m (map_to_list (deref h r)))
      with (hc := h ++ [∅]) as (h' & E & Hlen & Hfr & Hno & Hin).
    + apply copyData_appends.
    + intros k t hc Hk Hp. destruct r as [l|];
        [|by unfold deref in Hk; rewrite lookup_empty in Hk].
      destruct Hpl as [_ Hpl]. apply (Hpl k _) in Hk.
      destruct (IH hc t (plain_prefix _ _ _ _ Hk Hp)) as (h1 & E1 & _ & Hd).
      exists h1. split; [done|]. by apply (deep_copy_source _ _ h hc).
    + done.
    + apply NoDup_fst_map_to_list.
    + intros k v Hin. apply elem_of_map_to_list in Hin. split; [done|].
      destruct v as [z|t|t]; try done. destruct r as [l|];
        [|by unfold deref in Hin; rewrite lookup_empty in Hin].
      destruct Hpl as [_ Hpl]. by apply (Hpl k _) in Hin.
    + by apply prefix_app_r.
    + rewrite length_app. simpl. lia.
    + exists h'. change (copyData (S (S m)) r h) with
        (match copy_range (copyData (S m)) r (length h) (map_to_list (deref h r)) (h ++ [∅]) with
         | Some h1 => Some (length h, h1) | None => None end).
      rewrite E. split; [done|].
      rewrite length_app in Hlen. simpl in Hlen.
      split.
      { eapply (copy_range_prefix _ _ _ _ (copyData_appends (S m)) h); [|done|exact E].
        by apply prefix_app_r. }
      split; [done|]. split; [lia|]. intros k.
      destruct (deref h r !! k) as [v|] eqn:Hk.
      * apply elem_of_map_to_list in Hk. specialize (Hin k v Hk).
        destruct v as [z|t|t]; try done.
        destruct Hin as (c' & Hc' & Hd). exists c'. split; [done|].
        apply (deep_copy_widen (S (length h)) (length h')); [lia|done|done].
      * rewrite Hno.
        -- unfold deref. rewrite lookup_app_r by done. rewrite Nat.sub_diag. simpl.
           apply lookup_empty.
        -- intros Hin'. apply list_elem_of_fmap in Hin' as ([k' v'] & -> & Hin').
           apply elem_of_map_to_list in Hin'. simpl in Hk. congruence.
Qed.

End copy_plain.

(** ** Payloads without nested maps *)

Section copy_flat.

Implicit Types (h : store) (d r : ref) (nd : loc) (kvs : list (string * value)).

Lemma foldl_put_lookup kvs :
  NoDup kvs.*1 ->
  forall (m : dmap) k,
    foldl put m kvs !! k
    = match (list_to_map kvs : dmap) !! k with Some v => Some v | None => m !! k end.
Proof.
  induction kvs as [|[k0 v0] rest IH]; intros Hnd m k; simpl.
  - by rewrite lookup_empty.
  - apply NoDup_cons in Hnd as [Hk0 Hnd]. rewrite IH by done. unfold put. simpl.
    destruct (decide (k0 = k)) as [->|Hne].
    + rewrite !lookup_insert_eq. by rewrite (not_elem_of_list_to_map_1 _ _ Hk0).
    + by rewrite !lookup_insert_ne.
Qed.

Lemma foldl_put_map_to_list (m : dmap) : foldl put ∅ (map_to_list m) = m.
Proof.
  apply map_eq. intros k.
  rewrite foldl_put_lookup by apply NoDup_fst_map_to_list.
  rewrite list_to_map_to_list, lookup_empty. by destruct (m !! k).
Qed.

Lemma copy_range_leaves rec d kvs :
  Forall (fun kv => is_leaf kv.2 = true) kvs ->
  forall h m, copy_range rec d (length h) kvs (h ++ [m]) = Some (h ++ [foldl put m kvs]).
Proof.
  induction kvs as [|[k v] rest IH]; intros Hall h m; simpl; [done|].
  apply Forall_cons in Hall as [Hv Hall]. destruct v as [z|t|t]; try done.
  unfold store_key. rewrite alter_app_r_alt by done. rewrite Nat.sub_diag. simpl.
  by apply IH.
Qed.

(** A payload without nested maps is copied by one level of the
    recursion: the call appends one map with the same entries. *)
Lemma copyData_flat h r n :
  flat h r -> copyData (S n) r h = Some (length h, h ++ [deref h r]).
Proof.
  intros Hfl. simpl. rewrite copy_range_leaves.
  - by rewrite foldl_put_map_to_list.
  - apply Forall_forall. intros [k v] Hin. apply elem_of_map_to_list in Hin.
    by apply (Hfl k).
Qed.

Lemma copy_range_retags rec d nd kvs :
  appends rec ->
  NoDup kvs.*1 ->
  forall h h', nd < length h -> copy_range rec d nd kvs h = Some h' ->
    (forall k, k ∉ kvs.*1 -> deref h' (Some nd) !! k = deref h (Some nd) !! k)
    /\ (forall k t, (k, VMap t) ∈ kvs ->
          exists c', deref h' (Some nd) !! k = Some (VData (Some c'))).
Proof.
  intros Hrec. induction kvs as [|[k v] rest IH]; intros Hnd h h' Hlt; simpl.
  - intros [= <-]. split; [done|]. intros k t Hin. by apply elem_of_nil in Hin.
  - apply NoDup_cons in Hnd as [Hk Hnd]. destruct v as [z|t|t].
    + intros E. apply IH in E as [Hno Hin]; [|done|by rewrite store_key_length].
      split.
      * intros k' Hk'. apply not_elem_of_cons in Hk' as [Hne Hk'].
        rewrite Hno by done. rewrite store_key_deref_eq by done.
        by rewrite lookup_insert_ne.
      * intros k' t' Hin'. apply elem_of_cons in Hin' as [[=]|Hin']. by eapply Hin.
    + destruct (rec d h) as [[c h1]|] eqn:E1; [|done].
      pose proof (Hrec _ _ _ _ E1) as (_ & Hp1 & Hlt1).
      intros E. apply IH in E as [Hno Hin]; [|done|rewrite store_key_length; lia].
      split.
      * intros k' Hk'. apply not_elem_of_cons in Hk' as [Hne Hk'].
        rewrite Hno by done. rewrite store_key_deref_eq by lia.
        rewrite lookup_insert_ne by done. by rewrite (deref_prefix h h1 nd Hp1 Hlt).
      * intros k' t' Hin'. apply elem_of_cons in Hin' as [[=]|Hin']. by eapply Hin.
    + destruct (rec t h) as [[c h1]|] eqn:E1; [|done].
      pose proof (Hrec _ _ _ _ E1) as (_ & Hp1 & Hlt1).
      intros E. apply IH in E as [Hno Hin]; [|done|rewrite store_key_length; lia].
      split.
      * intros k' Hk'. apply not_elem_of_cons in Hk' as [Hne Hk'].
        rewrite Hno by done. rewrite store_key_deref_eq by lia.
        rewrite lookup_insert_ne by done. by rewrite (deref_prefix h h1 nd Hp1 Hlt).
      * intros k' t' Hin'. apply elem_of_cons in Hin' as [[= -> ->]|Hin'];
          [|by eapply Hin].
        exists c. rewrite Hno by done. rewrite store_key_deref_eq by lia.
        by rewrite lookup_insert_eq.
Qed.

(** A plain nested map comes back from the copy as a [Data]. *)
Lemma copyData_retags fuel h d c h' k t :
  copyData fuel d h = Some (c, h') ->
  deref h d !! k = Some (VMap t) ->
  exists c', deref h' (Some c) !! k = Some (VData (Some c')).
Proof.
  destruct fuel as [|n]; [done|]. simpl.
  destruct (copy_range (copyData n) d (length h) (map_to_list (deref h d)) (h ++ [∅]))
    as [h1|] eqn:E; [|done].
  intros [= <- <-] Hk.
  apply copy_range_retags in E as [_ Hin].
  - apply (Hin k t). by apply elem_of_map_to_list.
  - apply copyData_appends.
  - apply NoDup_fst_map_to_list.
  - rewrite length_app. simpl. lia.
Qed.

(** Copying a copy returns only when the original had no nested map at
    all: the first copy turns plain maps into [Data], on which the second
    copy does not return. *)
Lemma copy_twice_flat fuel h d c h1 (res : loc * store) :
  copyData fuel d h = Some (c, h1) ->
  copyData fuel (Some c) h1 = Some res ->
  flat h d.
Proof.
  intros E1 E2 k v Hk. destruct v as [z|t|t]; [done| |].
  - by rewrite (copyData_diverges h d k t Hk) in E1.
  - destruct (copyData_retags _ _ _ _ _ _ _ E1 Hk) as (c' & Hc').
    by rewrite (copyData_diverges h1 (Some c) k (Some c') Hc') in E2.
Qed.

End copy_flat.

(** ** One HandlerSet dispatch *)

Section call_facts.

Implicit Types (hs : HandlerSet) (d : ref) (w : world) (tr : list event).

Lemma calls_app tr1 tr2 : calls (tr1 ++ tr2) = calls tr1 ++ calls tr2.
Proof. unfold calls. apply omap_app. Qed.

Lemma rets_app tr1 tr2 : rets (tr1 ++ tr2) = rets tr1 ++ rets tr2.
Proof. unfold rets. apply omap_app. Qed.

Lemma tagged_app key d hs1 hs2 :
  tagged key d (hs1 ++ hs2) = tagged key d hs1 ++ tagged key d hs2.
Proof. unfold tagged. apply map_app. Qed.

Lemma invoke_trace key h d w w1 err :
  invoke key h d w = (w1, err) ->
  trace w1 = trace w ++ [EInvoke key (hid h) d (deref (heap w) d) err]
  /\ chans w1 = chans w
  /\ (heap w1, err) = Call h d (heap w).
Proof.
  unfold invoke. destruct (Call h d (heap w)) as [hp e0]. by intros [= <- <-].
Qed.

Lemma call_ran key hs : forall d w hs' w' err,
  call key hs d w = (hs', w', err) ->
  exists n tr,
    trace w' = trace w ++ tr
    /\ chans w' = chans w
    /\ ran key d hs n err tr
    /\ hs' = remaining hs n.
Proof.
  induction hs as [|en rest IH]; intros d w hs' w' err; simpl.
  - intros [= <- <- <-]. exists 0, []. rewrite app_nil_r. by repeat split.
  - destruct (invoke key (handler en) d w) as [w1 e1] eqn:Ei.
    apply invoke_trace in Ei as (Ht & Hc & _).
    assert (Hkept : (if once en then [] else [en])
                    = filter (fun en => once en = false) [en]).
    { rewrite filter_cons, filter_nil. destruct (once en); by case_decide. }
    destruct e1 as [x|].
    + intros [= <- <- <-]. exists 1, [EInvoke key (hid (handler en)) d (deref (heap w) d) (Some x)].
      split; [done|]. split; [done|]. split.
      * split; [simpl; lia|]. split; [done|]. split; [done|]. by exists 0.
      * unfold remaining. simpl. rewrite take_0, drop_0. by rewrite Hkept.
    + destruct (call key rest d w1) as [[rest' w2] err'] eqn:Ec.
      intros [= <- <- <-]. apply IH in Ec as (n & tr & Ht2 & Hc2 & Hran & ->).
      destruct Hran as (Hn & Hlen & Hcalls & Herr).
      exists (S n), (EInvoke key (hid (handler en)) d (deref (heap w) d) None :: tr).
      split; [rewrite Ht2, Ht; by rewrite <- app_assoc|].
      split; [congruence|]. split.
      * split; [simpl; lia|]. split; [simpl; lia|]. split.
        -- simpl. unfold calls in *. simpl. by rewrite Hcalls.
        -- destruct err' as [x|].
           ++ destruct Herr as (m & -> & Hr). exists (S m). split; [done|].
              simpl. unfold rets in *. simpl. by rewrite Hr.
           ++ destruct Herr as [-> Hr]. split; [done|].
              simpl. unfold rets in *. simpl. by rewrite Hr.
      * unfold remaining. simpl. rewrite filter_cons.
        rewrite Hkept, filter_cons, filter_nil.
        destruct (once en); case_decide; try done.
Qed.

End call_facts.

(** ** The three keys of an event are distinct *)

Lemma string_length_append (s1 s2 : string) :
  String.length (s1 ++ s2)%string = String.length s1 + String.length s2.
Proof. induction s1 as [|a s1 IH]; simpl; [done|]. by rewrite IH. Qed.

Lemma before_key_ne evt : before_key evt <> evt.
Proof.
  intros H. apply (f_equal String.length) in H. unfold before_key in H.
  rewrite string_length_append in H. simpl in H. lia.
Qed.

Lemma after_key_ne evt : after_key evt <> evt.
Proof.
  intros H. apply (f_equal String.length) in H. unfold after_key in H.
  rewrite string_length_append in H. simpl in H. lia.
Qed.

Lemma before_after_ne evt : before_key evt <> after_key evt.
Proof.
  intros H. apply (f_equal String.length) in H. unfold before_key, after_key in H.
  rewrite !string_length_append in H. simpl in H. lia.
Qed.

(** ** One key, then the three phases *)

Section emit_facts.

Implicit Types (e : Emitter) (d : ref) (w : world) (tr : list event).

Lemma ran_nothing key d : ran key d [] 0 None [].
Proof. by repeat split. Qed.

Lemma emit_ran e key d w e' w' err :
  emit e key d w = (e', w', err) ->
  exists n tr,
    trace w' = trace w ++ tr
    /\ chans w' = chans w
    /\ ran key d (set_of e key) n err tr
    /\ log e' = log e
    /\ oneTimeEmissions e' = oneTimeEmissions e
    /\ (forall k, k <> key -> handlers e' !! k = handlers e !! k)
    /\ handlers e' !! key = (fun hs => remaining hs n) <$> handlers e !! key.
Proof.
  unfold emit, set_of. destruct (handlers e !! key) as [hs|] eqn:Hk.
  - destruct (call key hs d w) as [[hs' w1] err1] eqn:Ec.
    intros [= <- <- <-]. apply call_ran in Ec as (n & tr & Ht & Hc & Hran & ->).
    exists n, tr. simpl. do 5 (split; [done|]). split.
    + intros k Hne. by rewrite lookup_insert_ne.
    + by rewrite lookup_insert_eq.
  - intros [= <- <- <-]. exists 0, []. rewrite app_nil_r. simpl.
    do 2 (split; [done|]). split; [apply ran_nothing|].
    do 3 (split; [done|]). by rewrite Hk.
Qed.

Lemma emit_set_of_other e key d w e' w' err k :
  emit e key d w = (e', w', err) -> k <> key -> set_of e' k = set_of e k.
Proof.
  intros E Hne. apply emit_ran in E as (n & tr & _ & _ & _ & _ & _ & Ho & _).
  unfold set_of. by rewrite Ho.
Qed.

Lemma dispatch_chain e evt d w e' w' err :
  dispatch e evt d w = (e', w', err) ->
  exists tb tm ta,
    trace w' = trace w ++ tb ++ tm ++ ta
    /\ chans w' = chans w
    /\ chain e evt d err tb tm ta.
Proof.
  unfold dispatch. fold (before_key evt). fold (after_key evt).
  destruct (emit e (before_key evt) d w) as [[e1 w1] err1] eqn:E1.
  pose proof (emit_set_of_other _ _ _ _ _ _ _ evt E1) as Hm1.
  pose proof (emit_set_of_other _ _ _ _ _ _ _ (after_key evt) E1) as Ha1.
  apply emit_ran in E1 as (nb & tb & Ht1 & Hc1 & Hr1 & _).
  destruct err1 as [x|].
  - intros [= <- <- <-]. exists tb, [], []. rewrite !app_nil_r.
    split; [done|]. split; [done|]. by exists nb, (Some x).
  - destruct (emit e1 evt d w1) as [[e2 w2] err2] eqn:E2.
    pose proof (emit_set_of_other _ _ _ _ _ _ _ (after_key evt) E2) as Ha2.
    apply emit_ran in E2 as (nm & tm & Ht2 & Hc2 & Hr2 & _).
    rewrite Hm1 in Hr2; [|intros H; symmetry in H; by apply before_key_ne in H].
    destruct err2 as [x|].
    + intros [= <- <- <-]. exists tb, tm, []. rewrite !app_nil_r.
      split; [by rewrite Ht2, Ht1, app_assoc|]. split; [congruence|].
      exists nb, None. split; [done|]. by exists nm, (Some x).
    + intros E3. apply emit_ran in E3 as (na & ta & Ht3 & Hc3 & Hr3 & _).
      rewrite Ha2, Ha1 in Hr3;
        [|intros H; symmetry in H; by apply before_after_ne in H|apply after_key_ne].
      exists tb, tm, ta.
      split; [by rewrite Ht3, Ht2, Ht1, !app_assoc|]. split; [congruence|].
      exists nb, None. split; [done|]. exists nm, None. split; [done|]. by exists na.
Qed.

End emit_facts.

(** ** The emitter's operations *)

Section operations.

Implicit Types (e : Emitter) (d : ref) (w : world) (t : task) (h : Handler).

Lemma logf_trace e lv msg evt d err w :
  trace (logf e lv msg evt d err w)
  = trace w ++ (if log e then [ELog lv msg evt d err] else [])
  /\ heap (logf e lv msg evt d err w) = heap w
  /\ chans (logf e lv msg evt d err w) = chans w.
Proof. unfold logf. destruct (log e); simpl; by rewrite ?app_nil_r. Qed.

Lemma Emit_inv fuel e evt d w c t w1 :
  Emit fuel e evt d w = Some (c, t, w1) ->
  c = length (chans w)
  /\ t = {| t_evt := evt; t_data := Some (length (heap w)); t_done := c |}
  /\ chans w1 = chans w ++ [0]
  /\ trace w1 = trace w ++ meta_warning e evt d
  /\ match d with
     | None => heap w1 = heap w ++ [∅]
     | Some _ => copyData fuel d (heap w) = Some (length (heap w), heap w1)
     end.
Proof.
  unfold Emit, meta_warning.
  set (w0 := if String.prefix "before:" evt || String.prefix "after:" evt
             then logf e LWarn msg_meta evt d None w else w).
  assert (Hw0 : heap w0 = heap w /\ chans w0 = chans w
                /\ trace w0 = trace w ++
                     (if String.prefix "before:" evt || String.prefix "after:" evt
                      then (if log e then [ELog LWarn msg_meta evt d None] else [])
                      else [])).
  { unfold w0. destruct (String.prefix "before:" evt || String.prefix "after:" evt).
    - destruct (logf_trace e LWarn msg_meta evt d None w) as (-> & -> & ->). done.
    - by rewrite app_nil_r. }
  destruct Hw0 as (Hh & Hc & Ht). rewrite Hh.
  destruct d as [l|].
  - destruct (copyData fuel (Some l) (heap w)) as [[c0 hp]|] eqn:E; [|done].
    pose proof (copyData_appends _ _ _ _ _ E) as (-> & _ & _).
    unfold make_chan. simpl. intros [= <- <- <-]. simpl. by rewrite Hc, Ht.
  - unfold NewData, make, make_chan. simpl. intros [= <- <- <-]. simpl.
    by rewrite Hc, Ht.
Qed.

(** [Emit] fails to return only when the copy of its payload does. *)
Lemma Emit_returns fuel e evt d w :
  is_Some (Emit fuel e evt d w)
  <-> d = None \/ is_Some (copyData fuel d (heap w)).
Proof.
  unfold Emit.
  set (w0 := if String.prefix "before:" evt || String.prefix "after:" evt
             then logf e LWarn msg_meta evt d None w else w).
  assert (Hh : heap w0 = heap w).
  { unfold w0. destruct (String.prefix "before:" evt || String.prefix "after:" evt);
      [|done]. apply logf_trace. }
  rewrite Hh. destruct d as [l|].
  - destruct (copyData fuel (Some l) (heap w)) as [[c0 hp]|] eqn:E.
    + unfold make_chan. simpl. split; [intros _; right; by eexists|by eexists].
    + split; [by intros [? ?]|]. intros [?|[? ?]]; done.
  - unfold NewData, make, make_chan. simpl. split; [by left|by eexists].
Qed.

Lemma run_task_inv e t w e' w' :
  run_task e t w = (e', w') ->
  exists tb tm ta err,
    trace w' = trace w ++ tb ++ tm ++ ta ++ outcome_log e t err ++ [ESend (t_done t)]
    /\ chans w' = alter S (t_done t) (chans w)
    /\ chain e (t_evt t) (t_data t) err tb tm ta.
Proof.
  unfold run_task.
  destruct (dispatch e (t_evt t) (t_data t) w) as [[e3 w3] err] eqn:Ed.
  apply dispatch_chain in Ed as (tb & tm & ta & Ht & Hc & Hch).
  intros [= <- <-]. exists tb, tm, ta, err. split; [|split; [|done]].
  - unfold chan_send, outcome_log. simpl.
    destruct err as [[|m]|]; simpl;
      rewrite ?(proj1 (logf_trace _ _ _ _ _ _ _)), Ht, <- ?app_assoc; try done.
  - unfold chan_send. simpl.
    destruct err as [[|m]|]; simpl;
      rewrite ?(proj2 (proj2 (logf_trace _ _ _ _ _ _ _))), Hc; done.
Qed.

Lemma handlers_for_add e evt o h :
  let '(e1, hs) := handlers_for e evt in
  let e2 := set_handlers e1 evt (hs ++ [entry_of o h]) in
  handlers e2 !! evt = Some (set_of e evt ++ [entry_of o h])
  /\ (forall k, k <> evt -> handlers e2 !! k = handlers e !! k)
  /\ oneTimeEmissions e2 = oneTimeEmissions e
  /\ log e2 = log e.
Proof.
  unfold handlers_for, set_of. destruct (handlers e !! evt) as [hs|] eqn:Hk; simpl.
  - rewrite lookup_insert_eq. repeat split; try done.
    intros k Hne. by rewrite lookup_insert_ne.
  - rewrite lookup_insert_eq. repeat split; try done.
    intros k Hne. by rewrite !lookup_insert_ne.
Qed.

(** [On] against a cached payload without nested maps. *)
Lemma On_cached fuel e evt h w data :
  oneTimeEmissions e !! evt = Some data ->
  flat (heap w) data ->
  let c := length (heap w) in
  let hp := heap w ++ [deref (heap w) data] in
  exists e' w',
    On (S fuel) e evt h w = Some (e', w')
    /\ handlers e' !! evt = Some (set_of e evt ++ [entry_of false h])
    /\ (forall k, k <> evt -> handlers e' !! k = handlers e !! k)
    /\ oneTimeEmissions e' = oneTimeEmissions e
    /\ trace w' = trace w ++ [EInvoke evt (hid h) (Some c) (deref (heap w) data)
                                      (Call h (Some c) hp).2]
    /\ heap w' = (Call h (Some c) hp).1
    /\ chans w' = chans w.
Proof.
  intros Hc Hfl c hp. unfold On.
  pose proof (handlers_for_add e evt false h) as Hadd.
  destruct (handlers_for e evt) as [e1 hs]. unfold add. fold (entry_of false h).
  cbv zeta in Hadd |- *. destruct Hadd as (H1 & H2 & H3 & H4).
  rewrite H3, Hc. rewrite copyData_flat by done. fold c. fold hp.
  unfold invoke. simpl. destruct (Call h (Some c) hp) as [hp' err] eqn:Ecall.
  eexists _, _. split; [done|]. simpl. repeat split; try done.
  unfold deref at 1. unfold hp. rewrite lookup_app_r by done.
  unfold c. by rewrite Nat.sub_diag.
Qed.

(** [Once] against a cached payload without nested maps. *)
Lemma Once_cached fuel e evt h w data :
  oneTimeEmissions e !! evt = Some data ->
  flat (heap w) data ->
  let c := length (heap w) in
  let hp := heap w ++ [deref (heap w) data] in
  exists w',
    Once (S fuel) e evt h w = Some (e, w')
    /\ trace w' = trace w ++ [EInvoke evt (hid h) (Some c) (deref (heap w) data)
                                      (Call h (Some c) hp).2]
    /\ heap w' = (Call h (Some c) hp).1
    /\ chans w' = chans w.
Proof.
  intros Hc Hfl c hp. unfold Once. rewrite Hc. rewrite copyData_flat by done.
  fold c. fold hp. unfold invoke. simpl.
  destruct (Call h (Some c) hp) as [hp' err] eqn:Ecall.
  eexists. split; [done|]. simpl. repeat split; try done.
  unfold deref at 1. unfold hp. rewrite lookup_app_r by done.
  unfold c. by rewrite Nat.sub_diag.
Qed.

End operations.

(** ** A returning EmitOnce *)

Section emit_once.

Implicit Types (e : Emitter) (d : ref) (w : world) (t : task) (h : Handler).

Lemma deref_app_new (hp : store) (m : dmap) : deref (hp ++ [m]) (Some (length hp)) = m.
Proof. unfold deref. rewrite lookup_app_r by done. by rewrite Nat.sub_diag. Qed.

Lemma flat_app_new (hp : store) (m : dmap) :
  (forall k v, m !! k = Some v -> is_leaf v = true) ->
  flat (hp ++ [m]) (Some (length hp)).
Proof. intros Hm k v. rewrite deref_app_new. apply Hm. Qed.

(** A returning [EmitOnce]: the payload had no nested map, one copy is
    cached under the three keys, a second one is handed to the task. *)
Lemma EmitOnce_inv fuel e evt d w c t e' w' :
  EmitOnce fuel e evt d w = Some (c, t, e', w') ->
  let cp := length (heap w) in
  flat (heap w) d
  /\ heap w' = heap w ++ [deref (heap w) d; deref (heap w) d]
  /\ e' = set_oneTime (set_oneTime (set_oneTime e (before_key evt) (Some cp))
                         evt (Some cp)) (after_key evt) (Some cp)
  /\ Emit fuel e' evt (Some cp) (with_heap w (heap w ++ [deref (heap w) d]))
     = Some (c, t, w')
  /\ t = {| t_evt := evt; t_data := Some (S cp); t_done := c |}
  /\ c = length (chans w)
  /\ chans w' = chans w ++ [0]
  /\ trace w' = trace w ++ meta_warning e evt (Some cp).
Proof.
  intros E cp. unfold EmitOnce in E. fold (before_key evt) in E. fold (after_key evt) in E.
  destruct (copyData fuel d (heap w)) as [[c0 hp]|] eqn:E1; [|done].
  match type of E with
  | match ?X with _ => _ end = _ => destruct X as [[[c1 t1] w1]|] eqn:E2; [|done]
  end.
  injection E as <- <- <- <-.
  pose proof (Emit_inv _ _ _ _ _ _ _ _ E2) as (Hc & Ht & Hch & Htr & Hcp).
  simpl in Hc, Ht, Hch, Htr, Hcp.
  assert (Hfl : flat (heap w) d) by (eapply copy_twice_flat; eauto).
  destruct fuel as [|n]; [done|].
  rewrite copyData_flat in E1 by done. injection E1 as <- <-.
  rewrite copyData_flat in Hcp by (apply flat_app_new; exact Hfl).
  rewrite deref_app_new in Hcp. injection Hcp as Hcp.
  split; [done|]. split; [by rewrite <- Hcp, <- app_assoc|]. split; [done|].
  split; [exact E2|]. split.
  { rewrite Ht. f_equal. rewrite length_app. simpl. f_equal. unfold cp. lia. }
  split; [done|]. split; [done|]. done.
Qed.

End emit_once.

(** ** Trace segments *)

Section segments.

Implicit Types (e : Emitter) (d : ref) (w : world) (t : task) (tr : list event).

Lemma calls_length_le tr : length (calls tr) <= length tr.
Proof.
  induction tr as [|ev tr IH]; [done|].
  change (ev :: tr) with ([ev] ++ tr). rewrite calls_app, !length_app.
  destruct ev; cbn; lia.
Qed.

Lemma calls_length_all tr :
  length (calls tr) = length tr -> Forall is_invocation tr.
Proof.
  induction tr as [|ev tr IH]; [by constructor|].
  pose proof (calls_length_le tr) as Hle.
  change (ev :: tr) with ([ev] ++ tr). rewrite calls_app, !length_app.
  destruct ev; cbn; intros Hlen; try (exfalso; lia).
  constructor; [done|]. apply IH. lia.
Qed.

Lemma ran_invocations key d hs n err tr :
  ran key d hs n err tr -> Forall is_invocation tr.
Proof.
  intros (Hn & Hlen & Hcalls & _). apply calls_length_all.
  rewrite Hcalls. unfold tagged. rewrite length_map, length_take. lia.
Qed.

Lemma chain_invocations e evt d err tb tm ta :
  chain e evt d err tb tm ta -> Forall is_invocation (tb ++ tm ++ ta).
Proof.
  intros (nb & eb & Hb & Hrest). apply Forall_app. split; [by eapply ran_invocations|].
  destruct eb as [x|].
  - destruct Hrest as (-> & -> & _). by constructor.
  - destruct Hrest as (nm & em & Hm & Hrest). apply Forall_app.
    split; [by eapply ran_invocations|]. destruct em as [x|].
    + destruct Hrest as (-> & _). by constructor.
    + destruct Hrest as (na & Ha). by eapply ran_invocations.
Qed.


Lemma send_not_in_outcome_log e t err c : ESend c ∉ outcome_log e t err.
Proof.
  unfold outcome_log. intros Hin.
  destruct err as [[|m]|]; destruct (log e);
    repeat (apply elem_of_cons in Hin as [Hin|Hin]; [discriminate|]);
    by apply elem_of_nil in Hin.
Qed.

(** The trace a task leaves: invocations, at most one log line, then the
    single write to its channel. *)
Lemma run_task_body e t w :
  exists inv err,
    trace (run_task e t w).2
    = trace w ++ inv ++ outcome_log e t err ++ [ESend (t_done t)]
    /\ Forall is_invocation inv
    /\ (forall c, ESend c ∉ inv ++ outcome_log e t err)
    /\ chans (run_task e t w).2 = alter S (t_done t) (chans w).
Proof.
  destruct (run_task e t w) as [e' w'] eqn:E.
  apply run_task_inv in E as (tb & tm & ta & err & Ht & Hc & Hch).
  apply chain_invocations in Hch.
  exists (tb ++ tm ++ ta), err. simpl.
  split; [by rewrite Ht, <- !app_assoc|]. split; [done|]. split; [|done].
  intros c Hin. apply elem_of_app in Hin as [Hin|Hin].
  - by apply (proj1 (Forall_forall _ _) Hch) in Hin.
  - by apply send_not_in_outcome_log in Hin.
Qed.

End segments.

(** * Part III: the properties of the specification *)

(** ** The deep copy *)

(** C10, at a payload the code fails on.  The specification has
    [copyData] terminate and return on every finite payload, also when a
    nested value has the [Data] type.  On the payload
    [{"inner": Data{"x": 1}}] the [case Data] branch calls
    [copyData(d)] on the outer map again, and no amount of fuel makes
    the call return. *)
Theorem copyData_nested_Data_never_returns :
  forall fuel,
    copyData fuel (Some 0)
      [ {[ "inner" := VData (Some 1) ]}; {[ "x" := VLeaf 1 ]} ] = None.
Proof.
  intros fuel. apply (copyData_diverges _ _ "inner" (Some 1)). reflexivity.
Qed.

(** C2, where the code departs from it.  The specification has every
    nested mapping value, of the [Data] type as of the plain map type,
    copied recursively.  A map that holds a value of the [Data] type
    under some key is never copied at all: [copyData] returns no copy of
    it, whatever the fuel. *)
Theorem copyData_Data_value_not_copied (h : store) (d : ref) (k : string) (t : ref) :
  deref h d !! k = Some (VData t) ->
  forall fuel, copyData fuel d h = None.
Proof. apply copyData_diverges. Qed.

Lemma copyData_Data_value_not_copied_witness :
  deref h_nested (Some 0) !! "pos" = Some (VData (Some 1))
  /\ copyData 64 (Some 0) h_nested = None.
Proof.
  assert (H : deref h_nested (Some 0) !! "pos" = Some (VData (Some 1)))
    by (vm_compute; reflexivity).
  split; [exact H|].
  exact (copyData_Data_value_not_copied h_nested (Some 0) "pos" (Some 1) H 64).
Defined.

(** ** Dispatch *)

(** C1: the task spawned by [Emit(E, d)] invokes the HandlerSet of
    [before:E], then, only if that returned no error, the one of [E],
    then, only if that returned no error, the one of [after:E]; the
    first error (the halt sentinel included) ends the chain.  In the
    trace of the task the three segments come in that order, each is a
    run of its own HandlerSet, and a segment that ended with an error is
    followed by empty segments. *)
Theorem Emit_task_runs_three_phases (fuel : nat) (e0 : Emitter) (evt : string)
    (d : ref) (w0 : world) (c : nat) (t : task) (w1 : world) :
  Emit fuel e0 evt d w0 = Some (c, t, w1) ->
  forall (e : Emitter) (w : world),
  exists tb tm ta err,
    trace (run_task e t w).2
    = trace w ++ tb ++ tm ++ ta ++ outcome_log e t err ++ [ESend c]
    /\ chain e evt (t_data t) err tb tm ta.
Proof.
  intros E e w. apply Emit_inv in E as (_ & -> & _).
  destruct (run_task e _ w) as [e' w'] eqn:Er.
  apply run_task_inv in Er as (tb & tm & ta & err & Ht & _ & Hch).
  by exists tb, tm, ta, err.
Qed.

Lemma Emit_task_runs_three_phases_witness :
  exists tb tm ta err,
    trace (run_task e_halting t_x w_x).2
    = trace w_x ++ tb ++ tm ++ ta ++ outcome_log e_halting t_x err ++ [ESend 0]
    /\ chain e_halting "x" (t_data t_x) err tb tm ta.
Proof.
  apply (Emit_task_runs_three_phases 1 e_halting "x" None w_empty 0 t_x w_x).
  vm_compute. reflexivity.
Defined.

Example halting_handler_skips_after_phase :
  trace (run_task e_halting t_x w_x).2
  = [ EInvoke "before:x" 3 (Some 0) ∅ None;
      EInvoke "x" 1 (Some 0) ∅ (Some ErrHalt);
      ELog LDebug msg_halt "x" (Some 0) None;
      ESend 0 ]
  /\ chans (run_task e_halting t_x w_x).2 = [1].
Proof. vm_compute. split; reflexivity. Qed.




(** C9: an event name that begins with [before:] or [after:] makes
    [Emit] log a warning (when there is a Logger) and nothing else: the
    call returns whenever the copy of the payload does, and its task
    runs the three phases for the literal name and writes the
    completion signal. *)
Theorem Emit_meta_name_warns_and_proceeds (fuel : nat) (e0 : Emitter) (evt : string)
    (d : ref) (w0 : world) :
  String.prefix "before:" evt = true \/ String.prefix "after:" evt = true ->
  (is_Some (Emit fuel e0 evt d w0)
   <-> d = None \/ is_Some (copyData fuel d (heap w0)))
  /\ forall c t w1,
       Emit fuel e0 evt d w0 = Some (c, t, w1) ->
       trace w1 = trace w0 ++ (if log e0 then [ELog LWarn msg_meta evt d None] else [])
       /\ forall e w, exists tb tm ta err,
            trace (run_task e t w).2
            = trace w ++ tb ++ tm ++ ta ++ outcome_log e t err ++ [ESend c]
            /\ chain e evt (t_data t) err tb tm ta
            /\ chans (run_task e t w).2 = alter S c (chans w).
Proof.
  intros Hmeta. split; [apply Emit_returns|].
  intros c t w1 E. apply Emit_inv in E as (_ & -> & _ & Htr & _). split.
  - rewrite Htr. unfold meta_warning.
    assert (String.prefix "before:" evt || String.prefix "after:" evt = true) as ->; [|done].
    destruct Hmeta as [-> | ->]; [done|by rewrite orb_true_r].
  - intros e w. destruct (run_task e _ w) as [e' w'] eqn:Er.
    apply run_task_inv in Er as (tb & tm & ta & err & Ht & Hc & Hch).
    by exists tb, tm, ta, err.
Qed.

Lemma Emit_meta_name_warns_and_proceeds_witness :
  trace w_meta = trace w_empty ++ (if log e_meta then [ELog LWarn msg_meta "before:x" None None] else [])
  /\ forall e w, exists tb tm ta err,
       trace (run_task e t_meta w).2
       = trace w ++ tb ++ tm ++ ta ++ outcome_log e t_meta err ++ [ESend 0]
       /\ chain e "before:x" (t_data t_meta) err tb tm ta
       /\ chans (run_task e t_meta w).2 = alter S 0 (chans w).
Proof.
  refine (proj2 (Emit_meta_name_warns_and_proceeds 1 e_meta "before:x" None w_empty _)
            0 t_meta w_meta _).
  - left. vm_compute. reflexivity.
  - vm_compute. reflexivity.
Defined.

Example meta_name_dispatches_literal_chain :
  Emit 1 e_meta "before:x" None w_empty = Some (0, t_meta, w_meta)
  /\ trace (run_task e_meta t_meta w_meta).2
     = [ ELog LWarn msg_meta "before:x" None None;
         EInvoke "before:before:x" 1 (Some 0) ∅ None;
         EInvoke "before:x" 2 (Some 0) ∅ None;
         EInvoke "after:before:x" 3 (Some 0) ∅ None;
         ESend 0 ]
  /\ chans (run_task e_meta t_meta w_meta).2 = [1].
Proof. vm_compute. repeat split; reflexivity. Qed.

(** ** Replay of a cached one-time emission *)

Lemma still_cached_inv e0 w0 evt d key e w :
  still_cached e0 w0 evt d key e w ->
  oneTimeEmissions e !! key = Some (Some (length (heap w0)))
  /\ flat (heap w) (Some (length (heap w0)))
  /\ deref (heap w) (Some (length (heap w0))) = deref (heap w0) d
  /\ length (heap w0) < length (heap w).
Proof.
  intros (fuel0 & c0 & t0 & e1 & w1 & E & Hkey & Hc & Hlen & Hd).
  apply EmitOnce_inv in E as (Hfl & Hh & -> & _).
  assert (Hcached : deref (heap w1) (Some (length (heap w0))) = deref (heap w0) d).
  { rewrite Hh. change [deref (heap w0) d; deref (heap w0) d]
      with ([deref (heap w0) d] ++ [deref (heap w0) d]).
    rewrite app_assoc. rewrite (deref_prefix (heap w0 ++ [deref (heap w0) d])).
    - apply deref_app_new.
    - by apply prefix_app_r.
    - rewrite length_app. simpl. lia. }
  split; [|split; [|split]].
  - rewrite Hc. simpl. unfold cache_keys in Hkey.
    apply elem_of_cons in Hkey as [->|Hkey].
    { rewrite lookup_insert_ne by (intros H; symmetry in H; by apply before_after_ne in H).
      rewrite lookup_insert_ne by (intros H; symmetry in H; by apply before_key_ne in H).
      by rewrite lookup_insert_eq. }
    apply elem_of_cons in Hkey as [->|Hkey].
    { rewrite lookup_insert_ne by apply after_key_ne. by rewrite lookup_insert_eq. }
    apply list_elem_of_singleton in Hkey as ->. by rewrite lookup_insert_eq.
  - intros k v. rewrite Hd, Hcached. apply Hfl.
  - by rewrite Hd.
  - rewrite Hh, length_app in Hlen. simpl in Hlen. lia.
Qed.

(** C4: with a payload cached for [E] by an earlier [EmitOnce], [On(E, h)]
    appends [h] as a persistent entry of [E]'s HandlerSet and, before it
    returns, invokes [h] once on a newly allocated map that has the
    entries of the cached payload; what [h] returns reaches neither the
    emitter nor the caller. *)
Theorem On_replays_cached_emission (e0 : Emitter) (w0 : world) (evt : string) (d : ref)
    (key : string) (e : Emitter) (w : world) (fuel : nat) (h : Handler) :
  still_cached e0 w0 evt d key e w ->
  let c := length (heap w) in
  let hp := heap w ++ [deref (heap w0) d] in
  exists e' w',
    On (S fuel) e key h w = Some (e', w')
    /\ handlers e' !! key = Some (set_of e key ++ [entry_of false h])
    /\ (forall k, k <> key -> handlers e' !! k = handlers e !! k)
    /\ oneTimeEmissions e' = oneTimeEmissions e
    /\ trace w' = trace w ++ [EInvoke key (hid h) (Some c) (deref (heap w0) d)
                                      (Call h (Some c) hp).2]
    /\ heap w' = (Call h (Some c) hp).1
    /\ chans w' = chans w
    /\ oneTimeEmissions e !! key = Some (Some (length (heap w0)))
    /\ length (heap w0) < c.
Proof.
  intros (Hc & Hfl & Hd & Hlt)%still_cached_inv c hp.
  destruct (On_cached fuel e key h w _ Hc Hfl)
    as (e' & w' & HOn & H1 & H2 & H3 & H4 & H5 & H6).
  rewrite Hd in H4, H5. by exists e', w'.
Qed.

Lemma EmitOnce_startup :
  EmitOnce 1 (NewEmitter false) "startup" (Some 0) w_users
  = Some (0, t_startup, e_startup, w_startup).
Proof. vm_compute. reflexivity. Qed.

Lemma still_cached_startup :
  still_cached (NewEmitter false) w_users "startup" (Some 0) "startup" e_startup w_startup.
Proof.
  exists 1, 0, t_startup, e_startup, w_startup.
  split; [exact EmitOnce_startup|]. split; [|done].
  unfold cache_keys. do 1 apply list_elem_of_further. apply list_elem_of_here.
Qed.

Lemma On_replays_cached_emission_witness :
  exists e' w',
    On 1 e_startup "startup" (h_mark 9) w_startup = Some (e', w')
    /\ handlers e' !! "startup" = Some (set_of e_startup "startup" ++ [entry_of false (h_mark 9)])
    /\ (forall k, k <> "startup" -> handlers e' !! k = handlers e_startup !! k)
    /\ oneTimeEmissions e' = oneTimeEmissions e_startup
    /\ trace w' = trace w_startup
                  ++ [EInvoke "startup" 9 (Some 4) (deref (heap w_users) (Some 0))
                        (Call (h_mark 9) (Some 4)
                           (heap w_startup ++ [deref (heap w_users) (Some 0)])).2]
    /\ heap w' = (Call (h_mark 9) (Some 4)
                    (heap w_startup ++ [deref (heap w_users) (Some 0)])).1
    /\ chans w' = chans w_startup
    /\ oneTimeEmissions e_startup !! "startup" = Some (Some 2)
    /\ 2 < 4.
Proof.
  exact (On_replays_cached_emission (NewEmitter false) w_users "startup" (Some 0)
           "startup" e_startup w_startup 0 (h_mark 9) still_cached_startup).
Defined.

Example On_replay_leaves_cache_alone :
  (fun r => match r with
            | Some (e', w') => (heap w', observed (trace w'))
            | None => ([], [])
            end) (On 1 e_startup "startup" (h_mark 9) w_startup)
  = ( [ {[ "user" := VLeaf 7 ]}; {[ "user" := VLeaf 8 ]};
        {[ "user" := VLeaf 7 ]}; {[ "user" := VLeaf 7 ]};
        {[ "user" := VLeaf 7; "seen" := VLeaf 1 ]} ],
      [ ("startup", 9, {[ "user" := VLeaf 7 ]}) ] ).
Proof. vm_compute. reflexivity. Qed.

(** C5: with a one-time emission cached for [E], [Once(E, h)] invokes [h]
    at once on a copy of the cached payload and leaves the emitter as it
    was, so [h] is in no HandlerSet; without one, [Once(E, h)] appends
    [h] as a once-flagged entry of [E]'s HandlerSet, which it creates if
    need be, and invokes nothing. *)
Theorem Once_replays_or_registers (e : Emitter) (w : world) (key : string) (h : Handler)
    (fuel : nat) :
  (forall e0 w0 evt d,
      still_cached e0 w0 evt d key e w ->
      let c := length (heap w) in
      let hp := heap w ++ [deref (heap w0) d] in
      exists w',
        Once (S fuel) e key h w = Some (e, w')
        /\ trace w' = trace w ++ [EInvoke key (hid h) (Some c) (deref (heap w0) d)
                                          (Call h (Some c) hp).2]
        /\ heap w' = (Call h (Some c) hp).1
        /\ chans w' = chans w)
  /\ (oneTimeEmissions e !! key = None ->
      exists e',
        Once fuel e key h w = Some (e', w)
        /\ handlers e' !! key = Some (set_of e key ++ [entry_of true h])
        /\ (forall k, k <> key -> handlers e' !! k = handlers e !! k)
        /\ oneTimeEmissions e' = oneTimeEmissions e).
Proof.
  split.
  - intros e0 w0 evt d (Hc & Hfl & Hd & Hlt)%still_cached_inv c hp.
    destruct (Once_cached fuel e key h w _ Hc Hfl) as (w' & HOnce & H1 & H2 & H3).
    rewrite Hd in H1, H2. by exists w'.
  - intros Hnone. unfold Once. rewrite Hnone.
    pose proof (handlers_for_add e key true h) as Hadd.
    destruct (handlers_for e key) as [e1 hs]. cbv zeta in Hadd.
    destruct Hadd as (H1 & H2 & H3 & _). unfold addOnce. fold (entry_of true h).
    by eexists.
Qed.

Lemma Once_replays_or_registers_witness :
  (exists w',
      Once 1 e_startup "startup" (h_ok 5) w_startup = Some (e_startup, w')
      /\ trace w' = trace w_startup
                    ++ [EInvoke "startup" 5 (Some 4) (deref (heap w_users) (Some 0))
                          (Call (h_ok 5) (Some 4)
                             (heap w_startup ++ [deref (heap w_users) (Some 0)])).2]
      /\ heap w' = (Call (h_ok 5) (Some 4)
                      (heap w_startup ++ [deref (heap w_users) (Some 0)])).1
      /\ chans w' = chans w_startup)
  /\ (exists e',
        Once 1 (NewEmitter false) "startup" (h_ok 5) w_users = Some (e', w_users)
        /\ handlers e' !! "startup"
           = Some (set_of (NewEmitter false) "startup" ++ [entry_of true (h_ok 5)])
        /\ (forall k, k <> "startup" -> handlers e' !! k = handlers (NewEmitter false) !! k)
        /\ oneTimeEmissions e' = oneTimeEmissions (NewEmitter false)).
Proof.
  split.
  - exact (proj1 (Once_replays_or_registers e_startup w_startup "startup" (h_ok 5) 0)
             (NewEmitter false) w_users "startup" (Some 0) still_cached_startup).
  - apply (proj2 (Once_replays_or_registers (NewEmitter false) w_users "startup" (h_ok 5) 1)).
    vm_compute. reflexivity.
Defined.

(** ** Once entries *)

Section once_entries.

Implicit Types (hs : HandlerSet) (d : ref) (w : world) (tr : list event).





End once_entries.


Example failing_once_entry_is_dropped :
  let hs := [entry_of true (h_fail 1); entry_of false (h_ok 2)] in
  let '(hs', w', err) := call "x" hs None w_empty in
  map (fun en => (hid (handler en), once en)) hs' = [(2, false)]
  /\ err = Some (ErrOther "boom")
  /\ calls (trace w') = [("x", 1, None)]
  /\ calls (trace (call_many "x" hs' [None; None] w').2)
     = [("x", 1, None); ("x", 2, None); ("x", 2, None)].
Proof. vm_compute. repeat split; reflexivity. Qed.

(** ** Registration order *)

Section registration_order.

Implicit Types (e : Emitter) (d : ref) (w : world) (tr : list event).

Lemma On_set_of fuel e evt h w e' w' :
  On fuel e evt h w = Some (e', w') ->
  set_of e' evt = set_of e evt ++ [entry_of false h]
  /\ forall k, k <> evt -> set_of e' k = set_of e k.
Proof.
  unfold On. pose proof (handlers_for_add e evt false h) as Hadd.
  destruct (handlers_for e evt) as [e1 hs]. cbv zeta in Hadd |- *.
  unfold add. fold (entry_of false h). destruct Hadd as (H1 & H2 & _).
  set (e2 := set_handlers e1 evt (hs ++ [entry_of false h])) in *.
  assert (He2 : set_of e2 evt = set_of e evt ++ [entry_of false h]
                /\ forall k, k <> evt -> set_of e2 k = set_of e k).
  { unfold set_of at 1. rewrite H1. split; [done|]. intros k Hk. unfold set_of.
    by rewrite H2. }
  destruct (oneTimeEmissions e2 !! evt) as [data|]; [|by intros [= <- <-]].
  destruct (copyData fuel data (heap w)) as [[c hp]|]; [|done].
  destruct (invoke evt h (Some c) (with_heap w hp)) as [w2 r]. by intros [= <- <-].
Qed.

Lemma On_all_set_of fuel evt hl : forall e w e' w',
  On_all fuel e evt hl w = Some (e', w') ->
  set_of e' evt = set_of e evt ++ map (entry_of false) hl
  /\ forall k, k <> evt -> set_of e' k = set_of e k.
Proof.
  induction hl as [|h rest IH]; intros e w e' w'; simpl.
  - intros [= <- <-]. by rewrite app_nil_r.
  - destruct (On fuel e evt h w) as [[e1 w1]|] eqn:E1; [|done].
    apply On_set_of in E1 as [H1 H2]. intros E. apply IH in E as [H3 H4].
    split.
    + by rewrite H3, H1, <- app_assoc.
    + intros k Hk. by rewrite H4, H2.
Qed.

Lemma replicate_None_snoc_not_all (m : nat) (x : error) :
  ~ Forall (eq None) (replicate m (None : option error) ++ [Some x]).
Proof.
  intros H. apply Forall_app in H as [_ H]. inversion H as [|? ? Hx]. discriminate.
Qed.

Lemma ran_no_error key d hs n err tr :
  ran key d hs n err tr -> Forall (eq None) (rets tr) ->
  err = None /\ calls tr = tagged key d hs.
Proof.
  intros (Hn & _ & Hcalls & Herr) Hall. destruct err as [x|].
  - destruct Herr as (m & _ & Hr). rewrite Hr in Hall.
    by apply replicate_None_snoc_not_all in Hall.
  - destruct Herr as [-> _]. by rewrite Hcalls, firstn_all.
Qed.

End registration_order.

(** C8: persistent handlers [h1 .. hn] registered on [E] in that order
    go to the end of [E]'s HandlerSet in that order, and the main phase
    of a dispatch of [E] invokes that sequence from its start, stopping
    only behind a handler that returned an error: when no handler of the
    before phase returned an error the main phase is a run of the
    sequence, and when none of the main phase did either, every entry
    was invoked, in registration order. *)
Theorem handlers_run_in_registration_order (fuel : nat) (e : Emitter) (evt : string)
    (hl : list Handler) (w : world) (e' : Emitter) (w' : world) :
  On_all fuel e evt hl w = Some (e', w') ->
  let registered := set_of e evt ++ map (entry_of false) hl in
  set_of e' evt = registered
  /\ forall t w1, t_evt t = evt ->
       exists tb tm ta err,
         trace (run_task e' t w1).2
         = trace w1 ++ tb ++ tm ++ ta ++ outcome_log e' t err ++ [ESend (t_done t)]
         /\ chain e' evt (t_data t) err tb tm ta
         /\ (Forall (eq None) (rets tb) ->
               exists nm em, ran evt (t_data t) registered nm em tm)
         /\ (Forall (eq None) (rets tb) -> Forall (eq None) (rets tm) ->
               calls tm = tagged evt (t_data t) registered).
Proof.
  intros E registered. apply On_all_set_of in E as [Hset _]. split; [done|].
  intros t w1 <-. destruct (run_task e' t w1) as [e2 w2] eqn:Er.
  apply run_task_inv in Er as (tb & tm & ta & err & Ht & _ & Hch).
  exists tb, tm, ta, err. split; [done|]. split; [done|].
  destruct Hch as (nb & eb & Hb & Hrest).
  assert (Hmain : Forall (eq None) (rets tb) ->
                  exists nm em, ran (t_evt t) (t_data t) registered nm em tm).
  { intros Hall. apply (ran_no_error _ _ _ _ _ _ Hb) in Hall as [-> _].
    destruct Hrest as (nm & em & Hm & _). rewrite Hset in Hm. by exists nm, em. }
  split; [done|]. intros Hb0 Hm0. destruct (Hmain Hb0) as (nm & em & Hm).
  by apply (ran_no_error _ _ _ _ _ _ Hm) in Hm0 as [_ ?].
Qed.

Lemma handlers_run_in_registration_order_witness :
  let registered :=
    set_of (NewEmitter true) "login" ++ map (entry_of false) [h_ok 1; h_mark 2; h_ok 3] in
  set_of e_login "login" = registered
  /\ forall t w1, t_evt t = "login" ->
       exists tb tm ta err,
         trace (run_task e_login t w1).2
         = trace w1 ++ tb ++ tm ++ ta ++ outcome_log e_login t err ++ [ESend (t_done t)]
         /\ chain e_login "login" (t_data t) err tb tm ta
         /\ (Forall (eq None) (rets tb) ->
               exists nm em, ran "login" (t_data t) registered nm em tm)
         /\ (Forall (eq None) (rets tb) -> Forall (eq None) (rets tm) ->
               calls tm = tagged "login" (t_data t) registered).
Proof.
  apply (handlers_run_in_registration_order 0 (NewEmitter true) "login"
           [h_ok 1; h_mark 2; h_ok 3] w_empty e_login w_empty).
  vm_compute. reflexivity.
Defined.

Example login_handlers_run_in_order :
  calls (trace (run_task e_login {| t_evt := "login"; t_data := Some 0; t_done := 0 |}
                  w_x).2)
  = [("login", 1, Some 0); ("login", 2, Some 0); ("login", 3, Some 0)].
Proof. vm_compute. reflexivity. Qed.

(** ** EmitOnce *)

Section emit_once_facts.

Implicit Types (e : Emitter) (d : ref) (w : world) (tr : list event).

Lemma observed_app tr1 tr2 : observed (tr1 ++ tr2) = observed tr1 ++ observed tr2.
Proof. unfold observed. apply omap_app. Qed.




End emit_once_facts.





(** * Part IV: further properties of the emitter *)

(** ** More fuel changes nothing *)

Section fuel.

Implicit Types (h : store) (d r : ref) (nd : loc) (kvs : list (string * value)).

Lemma copy_range_rec_mono rec1 rec2 d nd kvs :
  (forall r h res, rec1 r h = Some res -> rec2 r h = Some res) ->
  forall h h', copy_range rec1 d nd kvs h = Some h' ->
               copy_range rec2 d nd kvs h = Some h'.
Proof.
  intros Hrec. induction kvs as [|[k v] rest IH]; intros h h'; simpl; [done|].
  destruct v as [z|t|t].
  - apply IH.
  - destruct (rec1 d h) as [[c h1]|] eqn:E1; [|done].
    rewrite (Hrec _ _ _ E1). apply IH.
  - destruct (rec1 t h) as [[c h1]|] eqn:E1; [|done].
    rewrite (Hrec _ _ _ E1). apply IH.
Qed.

Lemma copyData_fuel_S fuel : forall d h res,
  copyData fuel d h = Some res -> copyData (S fuel) d h = Some res.
Proof.
  induction fuel as [|n IH]; intros d h res; [done|].
  change (copyData (S n) d h) with
    (match copy_range (copyData n) d (length h) (map_to_list (deref h d)) (h ++ [∅]) with
     | Some h1 => Some (length h, h1) | None => None end).
  change (copyData (S (S n)) d h) with
    (match copy_range (copyData (S n)) d (length h) (map_to_list (deref h d)) (h ++ [∅]) with
     | Some h1 => Some (length h, h1) | None => None end).
  destruct (copy_range (copyData n) d (length h) (map_to_list (deref h d)) (h ++ [∅]))
    as [h1|] eqn:E; [|done].
  by rewrite (copy_range_rec_mono _ _ _ _ _ IH _ _ E).
Qed.

Lemma copyData_fuel_le fuel fuel' d h res :
  fuel <= fuel' -> copyData fuel d h = Some res -> copyData fuel' d h = Some res.
Proof.
  induction 1 as [|m Hle IH]; [done|]. intros E. by apply copyData_fuel_S, IH.
Qed.

Lemma copyData_fuel_agree fuel fuel' d h res res' :
  copyData fuel d h = Some res -> copyData fuel' d h = Some res' -> res = res'.
Proof.
  intros E E'. destruct (Nat.le_ge_cases fuel fuel') as [Hle|Hle].
  - apply (copyData_fuel_le _ _ _ _ _ Hle) in E. congruence.
  - apply (copyData_fuel_le _ _ _ _ _ Hle) in E'. congruence.
Qed.

End fuel.

(** ** The copy, where it works and where it does not *)

Lemma plain_h_tree : plain h_tree 1 (Some 0).
Proof.
  split; [simpl; lia|]. intros k v Hk.
  change (deref h_tree (Some 0))
    with (<["a" := VMap (Some 1)]> {[ "n" := VLeaf 3 ]} : dmap) in Hk.
  apply lookup_insert_Some in Hk as [[_ <-]|[_ Hk]].
  - split; [simpl; lia|]. intros k' v' Hk'.
    change (deref h_tree (Some 1)) with ({[ "x" := VLeaf 1 ]} : dmap) in Hk'.
    by apply lookup_singleton_Some in Hk' as [_ <-].
  - by apply lookup_singleton_Some in Hk as [_ <-].
Qed.

(** X1: on a payload built from plain [map[string]interface{}] values
    only, of height at most [n], [copyData] returns with fuel [n + 1];
    the maps that existed are untouched, and the result is a copy of the
    whole tree in newly allocated maps, nested maps included. *)
Theorem copyData_copies_plain_maps (n : nat) (h : store) (r : ref) :
  plain h n r ->
  exists h',
    copyData (S n) r h = Some (length h, h')
    /\ h `prefix_of` h'
    /\ deep_copy (length h) (length h') h h' n r (length h).
Proof. apply copyData_plain. Qed.

Lemma copyData_copies_plain_maps_witness :
  exists h',
    copyData 2 (Some 0) h_tree = Some (length h_tree, h')
    /\ h_tree `prefix_of` h'
    /\ deep_copy (length h_tree) (length h') h_tree h' 1 (Some 0) (length h_tree).
Proof. exact (copyData_copies_plain_maps 1 h_tree (Some 0) plain_h_tree). Defined.

Example copyData_h_tree : copyData 2 (Some 0) h_tree = Some (2, h_tree_copied).
Proof. vm_compute. reflexivity. Qed.

(** X2: a copy that [copyData] returned for a payload holding a plain
    nested map cannot itself be copied: the nested map came back with
    the [Data] type, and on it [copyData] never returns. *)
Theorem copy_of_nested_payload_is_not_copyable (fuel : nat) (h : store) (d : ref)
    (c : loc) (h1 : store) (k : string) (t : ref) :
  copyData fuel d h = Some (c, h1) ->
  deref h d !! k = Some (VMap t) ->
  forall fuel', copyData fuel' (Some c) h1 = None.
Proof.
  intros E Hk fuel'. destruct (copyData_retags _ _ _ _ _ _ _ E Hk) as (c' & Hc').
  by apply (copyData_diverges h1 (Some c) k (Some c')).
Qed.

Lemma copy_of_nested_payload_is_not_copyable_witness :
  copyData 2 (Some 0) h_tree = Some (2, h_tree_copied)
  /\ deref h_tree (Some 0) !! "a" = Some (VMap (Some 1))
  /\ copyData 64 (Some 2) h_tree_copied = None.
Proof.
  assert (E : copyData 2 (Some 0) h_tree = Some (2, h_tree_copied))
    by (vm_compute; reflexivity).
  assert (Hk : deref h_tree (Some 0) !! "a" = Some (VMap (Some 1)))
    by (vm_compute; reflexivity).
  split; [exact E|]. split; [exact Hk|].
  exact (copy_of_nested_payload_is_not_copyable 2 h_tree (Some 0) 2 h_tree_copied
           "a" (Some 1) E Hk 64).
Defined.

(** X3: [EmitOnce] returns on no payload that holds a map, plain or of
    the [Data] type, under any key: it copies the payload and then has
    [Emit] copy that copy. *)
Theorem EmitOnce_nested_payload_never_returns (e : Emitter) (evt : string) (d : ref)
    (w : world) (k : string) (v : value) :
  deref (heap w) d !! k = Some v ->
  is_leaf v = false ->
  forall fuel, EmitOnce fuel e evt d w = None.
Proof.
  intros Hk Hv fuel.
  destruct (EmitOnce fuel e evt d w) as [[[[c t] e'] w']|] eqn:E; [|done].
  apply EmitOnce_inv in E as (Hfl & _). apply Hfl in Hk. congruence.
Qed.

Lemma EmitOnce_nested_payload_never_returns_witness :
  deref (heap w_tree) (Some 0) !! "a" = Some (VMap (Some 1))
  /\ EmitOnce 64 (NewEmitter true) "startup" (Some 0) w_tree = None.
Proof.
  assert (Hk : deref (heap w_tree) (Some 0) !! "a" = Some (VMap (Some 1)))
    by (vm_compute; reflexivity).
  split; [exact Hk|].
  exact (EmitOnce_nested_payload_never_returns (NewEmitter true) "startup" (Some 0)
           w_tree "a" (VMap (Some 1)) Hk eq_refl 64).
Defined.

(** X4: a returning [Emit] leaves every map that existed as it was and
    hands its task a newly allocated map: empty for a nil payload, with
    the caller's entries for a payload without nested maps, a copy of
    the whole tree for a payload of plain maps.  For a name that is not
    a meta event name the call leaves no trace of its own. *)
Theorem Emit_hands_the_task_a_copy (fuel : nat) (e : Emitter) (evt : string) (d : ref)
    (w : world) (c : nat) (t : task) (w1 : world) :
  Emit fuel e evt d w = Some (c, t, w1) ->
  heap w `prefix_of` heap w1
  /\ t_evt t = evt
  /\ t_data t = Some (length (heap w))
  /\ (flat (heap w) d -> deref (heap w1) (t_data t) = deref (heap w) d)
  /\ (forall n, plain (heap w) n d -> d <> None ->
        deep_copy (length (heap w)) (length (heap w1)) (heap w) (heap w1) n d
          (length (heap w)))
  /\ (String.prefix "before:" evt = false -> String.prefix "after:" evt = false ->
        trace w1 = trace w).
Proof.
  intros E. apply Emit_inv in E as (_ & -> & _ & Htr & Hcp). simpl.
  split; [|split; [done|split; [done|split; [|split]]]].
  - destruct d as [l|].
    + by apply copyData_appends in Hcp as (_ & Hp & _).
    + rewrite Hcp. by apply prefix_app_r.
  - intros Hfl. destruct d as [l|].
    + destruct fuel as [|n]; [done|]. rewrite copyData_flat in Hcp by done.
      injection Hcp as <-. apply deref_app_new.
    + rewrite Hcp. apply deref_app_new.
  - intros n Hpl Hd. destruct d as [l|]; [|done].
    destruct (copyData_plain n _ _ Hpl) as (h' & E' & _ & Hdc).
    pose proof (copyData_fuel_agree _ _ _ _ _ _ Hcp E') as [= ->]. done.
  - intros Hb Ha. rewrite Htr. unfold meta_warning. rewrite Hb, Ha. simpl.
    apply app_nil_r.
Qed.

Lemma Emit_hands_the_task_a_copy_witness :
  heap w_tree `prefix_of` h_tree_copied
  /\ deep_copy 2 4 h_tree h_tree_copied 1 (Some 0) 2.
Proof.
  pose proof (Emit_hands_the_task_a_copy 2 (NewEmitter true) "move" (Some 0) w_tree 0
                {| t_evt := "move"; t_data := Some 2; t_done := 0 |}
                {| heap := h_tree_copied; trace := []; chans := [0] |}) as H.
  destruct H as (H1 & _ & _ & _ & H5 & _); [vm_compute; reflexivity|].
  split; [exact H1|]. exact (H5 1 plain_h_tree ltac:(discriminate)).
Defined.

(** ** Off, and dispatches that find no handler *)

Section off_facts.

Implicit Types (e : Emitter) (d : ref) (w : world) (t : task) (h : Handler).

Lemma set_handlers_same e key hs :
  handlers e !! key = Some hs -> set_handlers e key hs = e.
Proof.
  intros Hk. destruct e as [hm l c]. unfold set_handlers. simpl in *.
  by rewrite insert_id.
Qed.

Lemma off_lookup e key k :
  handlers (off e key) !! k
  = if decide (k = key) then (fun _ => []) <$> handlers e !! k else handlers e !! k.
Proof.
  unfold off. destruct (handlers e !! key) as [hs|] eqn:Hk; simpl.
  - case_decide as Heq.
    + subst k. by rewrite lookup_insert_eq, Hk.
    + by rewrite lookup_insert_ne.
  - case_decide as Heq; [|done]. subst k. by rewrite Hk.
Qed.

Lemma off_rest e key :
  oneTimeEmissions (off e key) = oneTimeEmissions e /\ log (off e key) = log e.
Proof. unfold off. by destruct (handlers e !! key). Qed.

Lemma Off_lookup e evt k :
  handlers (Off e evt) !! k
  = if decide (k ∈ cache_keys evt) then (fun _ => []) <$> handlers e !! k
    else handlers e !! k.
Proof.
  unfold Off. fold (before_key evt). fold (after_key evt). unfold cache_keys.
  rewrite !off_lookup.
  pose proof (after_key_ne evt). pose proof (before_key_ne evt).
  pose proof (before_after_ne evt).
  repeat case_decide; subst; try done; try congruence.
  all: exfalso; rewrite !elem_of_cons, elem_of_nil in *; tauto.
Qed.

Lemma Off_rest e evt :
  oneTimeEmissions (Off e evt) = oneTimeEmissions e /\ log (Off e evt) = log e.
Proof.
  unfold Off. destruct (off_rest (off (off e ("before:" ++ evt)%string) evt)
                          ("after:" ++ evt)%string) as [-> ->].
  destruct (off_rest (off e ("before:" ++ evt)%string) evt) as [-> ->].
  apply off_rest.
Qed.

Lemma emit_nothing e key d w :
  set_of e key = [] -> emit e key d w = (e, w, None).
Proof.
  unfold set_of, emit. destruct (handlers e !! key) as [hs|] eqn:Hk; [|done].
  simpl. intros ->. simpl. by rewrite set_handlers_same.
Qed.

Lemma run_task_nothing e t w :
  (forall key, key ∈ cache_keys (t_evt t) -> set_of e key = []) ->
  run_task e t w = (e, chan_send (t_done t) w).
Proof.
  intros Hno. unfold run_task, dispatch.
  fold (before_key (t_evt t)). fold (after_key (t_evt t)).
  rewrite emit_nothing by (apply Hno, list_elem_of_here).
  rewrite emit_nothing by (apply Hno, list_elem_of_further, list_elem_of_here).
  rewrite emit_nothing
    by (apply Hno; do 2 apply list_elem_of_further; apply list_elem_of_here).
  done.
Qed.

End off_facts.

(** X5: a dispatch of an event whose three keys have no handler (no
    HandlerSet, or an empty one) invokes nothing, logs nothing, leaves
    the emitter as it is and writes the completion signal. *)
Theorem dispatch_without_handlers_only_signals (e : Emitter) (t : task) (w : world) :
  (forall key, key ∈ cache_keys (t_evt t) -> set_of e key = []) ->
  run_task e t w = (e, chan_send (t_done t) w).
Proof. apply run_task_nothing. Qed.

Lemma dispatch_without_handlers_only_signals_witness :
  run_task e_login {| t_evt := "logout"; t_data := Some 0; t_done := 0 |} w_x
  = (e_login, chan_send 0 w_x).
Proof.
  apply (dispatch_without_handlers_only_signals e_login
           {| t_evt := "logout"; t_data := Some 0; t_done := 0 |} w_x).
  intros key Hkey. unfold cache_keys in Hkey. simpl in Hkey.
  repeat (apply elem_of_cons in Hkey as [->|Hkey]; [vm_compute; reflexivity|]).
  by apply elem_of_nil in Hkey.
Defined.

(** X6: [Off(E)] empties the HandlerSets of [before:E], [E] and
    [after:E] where they exist and creates none; every other
    HandlerSet, the one-time cache and the Logger stay as they are; a
    dispatch of [E] that follows invokes nothing and still writes the
    completion signal. *)
Theorem Off_clears_the_three_sets (e : Emitter) (evt : string) :
  (forall key, handlers (Off e evt) !! key
               = if decide (key ∈ cache_keys evt)
                 then (fun _ => []) <$> handlers e !! key
                 else handlers e !! key)
  /\ oneTimeEmissions (Off e evt) = oneTimeEmissions e
  /\ log (Off e evt) = log e
  /\ forall t w, t_evt t = evt ->
       run_task (Off e evt) t w = (Off e evt, chan_send (t_done t) w).
Proof.
  split; [apply Off_lookup|]. split; [apply Off_rest|]. split; [apply Off_rest|].
  intros t w <-. apply run_task_nothing. intros key Hkey. unfold set_of.
  rewrite Off_lookup, decide_True by done. by destruct (handlers e !! key).
Qed.

(** X7: [Off] does not forget a one-time emission: a handler registered
    with [On] under one of the three keys after [Off(E)] is still
    replayed with the cached payload, and is then the only entry of its
    HandlerSet. *)
Theorem Off_keeps_the_one_time_cache (e0 : Emitter) (w0 : world) (evt : string)
    (d : ref) (key : string) (e : Emitter) (w : world) (fuel : nat) (h : Handler) :
  still_cached e0 w0 evt d key e w ->
  exists e' w',
    On (S fuel) (Off e evt) key h w = Some (e', w')
    /\ observed (trace w') = observed (trace w) ++ [(key, hid h, deref (heap w0) d)]
    /\ set_of e' key = [entry_of false h]
    /\ oneTimeEmissions e' = oneTimeEmissions e.
Proof.
  intros Hst. pose proof Hst as (Hc & Hfl & Hd & _)%still_cached_inv.
  destruct Hst as (_ & _ & _ & _ & _ & _ & Hkey & _).
  destruct (Off_rest e evt) as [Hcache _].
  destruct (On_cached fuel (Off e evt) key h w (Some (length (heap w0))))
    as (e' & w' & HOn & H1 & _ & H3 & H4 & _); [by rewrite Hcache|done|].
  exists e', w'. split; [done|]. split; [by rewrite H4, observed_app, Hd|].
  split; [|by rewrite H3].
  unfold set_of at 1. rewrite H1. simpl. unfold set_of.
  rewrite Off_lookup, decide_True by done. by destruct (handlers e !! key).
Qed.

Lemma Off_keeps_the_one_time_cache_witness :
  exists e' w',
    On 1 (Off e_startup "startup") "startup" (h_ok 5) w_startup = Some (e', w')
    /\ observed (trace w')
       = observed (trace w_startup) ++ [("startup", 5, deref (heap w_users) (Some 0))]
    /\ set_of e' "startup" = [entry_of false (h_ok 5)]
    /\ oneTimeEmissions e' = oneTimeEmissions e_startup.
Proof.
  exact (Off_keeps_the_one_time_cache (NewEmitter false) w_users "startup" (Some 0)
           "startup" e_startup w_startup 0 (h_ok 5) still_cached_startup).
Defined.

(** X8: without a cached one-time emission for [E], [On(E, h)] returns
    whatever the fuel, invokes nothing and touches neither the store,
    the cache nor any other HandlerSet: it appends [h] as a persistent
    entry of [E]'s HandlerSet, which it creates when there is none. *)
Theorem On_without_cached_emission (fuel : nat) (e : Emitter) (evt : string)
    (h : Handler) (w : world) :
  oneTimeEmissions e !! evt = None ->
  exists e',
    On fuel e evt h w = Some (e', w)
    /\ handlers e' !! evt = Some (set_of e evt ++ [entry_of false h])
    /\ (forall k, k <> evt -> handlers e' !! k = handlers e !! k)
    /\ oneTimeEmissions e' = oneTimeEmissions e.
Proof.
  intros Hnone. unfold On.
  pose proof (handlers_for_add e evt false h) as Hadd.
  destruct (handlers_for e evt) as [e1 hs]. cbv zeta in Hadd |- *.
  unfold add. fold (entry_of false h). destruct Hadd as (H1 & H2 & H3 & _).
  rewrite H3, Hnone. by eexists.
Qed.

Lemma On_without_cached_emission_witness :
  exists e',
    On 0 e_login "login" (h_halt 9) w_x = Some (e', w_x)
    /\ handlers e' !! "login" = Some (set_of e_login "login" ++ [entry_of false (h_halt 9)])
    /\ (forall k, k <> "login" -> handlers e' !! k = handlers e_login !! k)
    /\ oneTimeEmissions e' = oneTimeEmissions e_login.
Proof.
  apply (On_without_cached_emission 0 e_login "login" (h_halt 9) w_x).
  vm_compute. reflexivity.
Defined.

(** ** What a dispatch leaves of the registry *)

Section dispatch_registry.

Implicit Types (e : Emitter) (d : ref) (w : world) (t : task) (hs : HandlerSet).

Lemma remaining_persistent hs n :
  persistent_entries (remaining hs n) = persistent_entries hs.
Proof.
  unfold persistent_entries, remaining. rewrite filter_app.
  rewrite list_filter_filter_l by done.
  by rewrite <- filter_app, take_drop.
Qed.

Lemma remaining_sublist hs n : remaining hs n `sublist_of` hs.
Proof.
  unfold remaining. rewrite <- (take_drop n hs) at 3.
  apply sublist_app; [apply sublist_filter; apply _|done].
Qed.

Lemma shrinks_only_refl e : shrinks_only e e.
Proof. by repeat split. Qed.

Lemma shrinks_only_trans e1 e2 e3 :
  shrinks_only e1 e2 -> shrinks_only e2 e3 -> shrinks_only e1 e3.
Proof.
  intros (Hc1 & Hl1 & H1) (Hc2 & Hl2 & H2).
  split; [congruence|]. split; [congruence|]. intros key.
  destruct (H1 key) as (Hp1 & Hs1 & Hk1). destruct (H2 key) as (Hp2 & Hs2 & Hk2).
  split; [congruence|]. split; [by etrans|]. by rewrite Hk2.
Qed.

Lemma emit_shrinks_only e key d w e' w' err :
  emit e key d w = (e', w', err) ->
  shrinks_only e e' /\ forall k, k <> key -> handlers e' !! k = handlers e !! k.
Proof.
  intros E. apply emit_ran in E as (n & tr & _ & _ & _ & Hl & Hc & Ho & Hk).
  split; [|done]. split; [done|]. split; [done|]. intros k. unfold set_of.
  destruct (decide (k = key)) as [->|Hne].
  - rewrite Hk. destruct (handlers e !! key) as [hs|]; simpl.
    + split; [apply remaining_persistent|]. split; [apply remaining_sublist|].
      split; by eexists.
    + split; [done|]. split; [done|]. done.
  - by rewrite (Ho k Hne).
Qed.

Lemma dispatch_shrinks_only e evt d w e' w' err :
  dispatch e evt d w = (e', w', err) ->
  shrinks_only e e'
  /\ forall k, k ∉ cache_keys evt -> handlers e' !! k = handlers e !! k.
Proof.
  unfold dispatch. fold (before_key evt). fold (after_key evt).
  destruct (emit e (before_key evt) d w) as [[e1 w1] err1] eqn:E1.
  apply emit_shrinks_only in E1 as [Hs1 Ho1].
  assert (Hout : forall k, k ∉ cache_keys evt ->
            k <> before_key evt /\ k <> evt /\ k <> after_key evt).
  { intros k Hk. unfold cache_keys in Hk.
    rewrite !not_elem_of_cons in Hk. tauto. }
  destruct err1 as [x|].
  { intros [= <- <- <-]. split; [done|]. intros k Hk. apply Ho1. by apply Hout. }
  destruct (emit e1 evt d w1) as [[e2 w2] err2] eqn:E2.
  apply emit_shrinks_only in E2 as [Hs2 Ho2].
  destruct err2 as [x|].
  { intros [= <- <- <-]. split; [by eapply shrinks_only_trans|].
    intros k Hk. destruct (Hout k Hk) as (? & ? & ?). by rewrite Ho2, Ho1. }
  intros E3. apply emit_shrinks_only in E3 as [Hs3 Ho3].
  split; [eapply shrinks_only_trans; [|exact Hs3]; by eapply shrinks_only_trans|].
  intros k Hk. destruct (Hout k Hk) as (? & ? & ?). by rewrite Ho3, Ho2, Ho1.
Qed.

End dispatch_registry.

(** X9: a dispatch registers nothing and removes no persistent handler,
    whatever its handlers return: after the task ran, the cache and the
    Logger are the same, the same keys have a HandlerSet, every
    HandlerSet is a sub-sequence of what it was with all its persistent
    entries, in order, and the HandlerSets of other events are
    untouched. *)
Theorem dispatch_keeps_persistent_handlers (e : Emitter) (t : task) (w : world) :
  shrinks_only e (run_task e t w).1
  /\ forall k, k ∉ cache_keys (t_evt t) ->
       handlers (run_task e t w).1 !! k = handlers e !! k.
Proof.
  unfold run_task.
  destruct (dispatch e (t_evt t) (t_data t) w) as [[e3 w3] err] eqn:Ed.
  simpl. by apply dispatch_shrinks_only in Ed.
Qed.

Example failing_once_handler_costs_no_persistent_one :
  let e' := (run_task e_mixed t_x w_x).1 in
  map (fun en => (hid (handler en), once en)) (set_of e' "x") = [(1, false); (3, false)]
  /\ map (fun en => (hid (handler en), once en)) (set_of e' "after:x") = [(4, true)]
  /\ calls (trace (run_task e_mixed t_x w_x).2) = [("x", 1, Some 0); ("x", 2, Some 0)].
Proof. vm_compute. repeat split; reflexivity. Qed.

(** ** One payload per dispatch, one channel per call *)

Section sharing.

Implicit Types (e : Emitter) (d : ref) (w : world) (t : task) (tr : list event).

Lemma payloads_app tr1 tr2 : payloads (tr1 ++ tr2) = payloads tr1 ++ payloads tr2.
Proof. unfold payloads. by rewrite calls_app, fmap_app. Qed.


Lemma run_task_chans e t w :
  chans (run_task e t w).2 = alter S (t_done t) (chans w).
Proof.
  destruct (run_task_body e t w) as (inv & err & _ & _ & _ & H). exact H.
Qed.

End sharing.


Example later_handler_sees_earlier_write :
  observed (trace (run_task e_login {| t_evt := "login"; t_data := Some 0; t_done := 0 |}
                     w_x).2)
  = [ ("login", 1, ∅); ("login", 2, ∅); ("login", 3, {[ "seen" := VLeaf 1 ]}) ].
Proof. vm_compute. reflexivity. Qed.

(** X11: two calls of [Emit] get two channels and two payload copies,
    and each task writes to its own channel only: once both tasks have
    run, in either order, each channel holds exactly one value. *)
Theorem each_Emit_has_its_own_channel (f1 f2 : nat) (e1 e2 : Emitter)
    (evt1 evt2 : string) (d1 d2 : ref) (w : world)
    (c1 c2 : nat) (t1 t2 : task) (w1 w2 : world) :
  Emit f1 e1 evt1 d1 w = Some (c1, t1, w1) ->
  Emit f2 e2 evt2 d2 w1 = Some (c2, t2, w2) ->
  c1 <> c2
  /\ t_data t1 <> t_data t2
  /\ chans w2 = chans w ++ [0; 0]
  /\ forall e e',
       chans (run_task e' t2 (run_task e t1 w2).2).2 = chans w ++ [1; 1]
       /\ chans (run_task e' t1 (run_task e t2 w2).2).2 = chans w ++ [1; 1].
Proof.
  intros E1 E2.
  pose proof (Emit_inv _ _ _ _ _ _ _ _ E1) as (Hc1 & Ht1 & Hch1 & _ & Hcp1).
  pose proof (Emit_inv _ _ _ _ _ _ _ _ E2) as (Hc2 & Ht2 & Hch2 & _ & _).
  assert (Hlen : length (heap w) < length (heap w1)).
  { destruct d1 as [l|].
    - by apply copyData_appends in Hcp1 as (_ & _ & ?).
    - rewrite Hcp1, length_app. simpl. lia. }
  assert (Hd1 : t_done t1 = length (chans w)) by (rewrite Ht1; simpl; congruence).
  assert (Hd2 : t_done t2 = S (length (chans w))).
  { rewrite Ht2. simpl. rewrite Hc2, Hch1, length_app. simpl. lia. }
  split; [rewrite Hc1, Hc2, Hch1, length_app; simpl; lia|].
  split; [rewrite Ht1, Ht2; simpl; intros [= H]; lia|].
  assert (Hw2 : chans w2 = chans w ++ [0; 0]).
  { rewrite Hch2, Hch1, <- app_assoc. done. }
  split; [done|]. intros e e'. rewrite !run_task_chans, Hd1, Hd2, Hw2.
  split.
  - rewrite (alter_app_r_alt _ _ _ (length (chans w))) by done.
    rewrite Nat.sub_diag. simpl.
    rewrite (alter_app_r_alt _ _ _ (S (length (chans w)))) by lia.
    replace (S (length (chans w)) - length (chans w)) with 1 by lia. done.
  - rewrite (alter_app_r_alt _ _ _ (S (length (chans w)))) by lia.
    replace (S (length (chans w)) - length (chans w)) with 1 by lia. simpl.
    rewrite (alter_app_r_alt _ _ _ (length (chans w))) by done.
    rewrite Nat.sub_diag. done.
Qed.

Lemma each_Emit_has_its_own_channel_witness :
  0 <> 1
  /\ Some 2 <> Some 3
  /\ [0; 0] = chans w_users ++ [0; 0]
  /\ forall e e',
       chans (run_task e' {| t_evt := "b"; t_data := Some 3; t_done := 1 |}
                (run_task e {| t_evt := "a"; t_data := Some 2; t_done := 0 |}
                   {| heap := heap w_users ++ [ {[ "user" := VLeaf 7 ]};
                                                {[ "user" := VLeaf 8 ]} ];
                      trace := []; chans := [0; 0] |}).2).2
       = chans w_users ++ [1; 1]
       /\ chans (run_task e' {| t_evt := "a"; t_data := Some 2; t_done := 0 |}
                   (run_task e {| t_evt := "b"; t_data := Some 3; t_done := 1 |}
                      {| heap := heap w_users ++ [ {[ "user" := VLeaf 7 ]};
                                                   {[ "user" := VLeaf 8 ]} ];
                         trace := []; chans := [0; 0] |}).2).2
          = chans w_users ++ [1; 1].
Proof.
  apply (each_Emit_has_its_own_channel 1 1 (NewEmitter false) (NewEmitter false)
           "a" "b" (Some 0) (Some 1) w_users 0 1
           {| t_evt := "a"; t_data := Some 2; t_done := 0 |}
           {| t_evt := "b"; t_data := Some 3; t_done := 1 |}
           {| heap := heap w_users ++ [ {[ "user" := VLeaf 7 ]} ];
              trace := []; chans := [0] |}
           {| heap := heap w_users ++ [ {[ "user" := VLeaf 7 ]}; {[ "user" := VLeaf 8 ]} ];
              trace := []; chans := [0; 0] |}).
  - vm_compute. reflexivity.
  - vm_compute. reflexivity.
Defined.

(** * Part V: the Lua engine's helpers *)

(** ** toSnake *)

Section snake_facts.

Variables (IsUpper IsLower : Z -> bool) (ToLower : Z -> Z).

Local Abbreviation boundary := (snake_boundary IsUpper IsLower).
Local Abbreviation step := (snake_step IsUpper IsLower ToLower).
Local Abbreviation piece := (snake_piece IsUpper IsLower ToLower).
Local Abbreviation snake := (toSnake IsUpper IsLower ToLower).

Implicit Types (runes out : list Z) (l : list nat).

Lemma foldl_snake_step runes l : forall out,
  foldl (step runes) out l = out ++ concat (map (piece runes) l).
Proof.
  induction l as [|i l IH]; intros out; simpl; [by rewrite app_nil_r|].
  rewrite IH. unfold snake_step, snake_piece.
  destruct (boundary runes i); simpl; by rewrite <- !app_assoc.
Qed.

Lemma toSnake_pieces runes :
  snake runes = concat (map (piece runes) (seq 0 (length runes))).
Proof. unfold toSnake. by rewrite foldl_snake_step. Qed.

Lemma rune_at_seq runes : map (rune_at runes) (seq 0 (length runes)) = runes.
Proof.
  apply list_eq. intros i. rewrite list_lookup_fmap.
  destruct (decide (i < length runes)) as [Hlt|Hge].
  - rewrite lookup_seq_lt by done. simpl. unfold rune_at.
    destruct (lookup_lt_is_Some_2 runes i Hlt) as [x Hx]. by rewrite Hx.
  - rewrite lookup_seq_ge by lia. simpl. symmetry. apply lookup_ge_None_2. lia.
Qed.

Lemma rune_at_elem_of runes i : i < length runes -> rune_at runes i ∈ runes.
Proof.
  intros Hlt. unfold rune_at. destruct (lookup_lt_is_Some_2 runes i Hlt) as [x Hx].
  rewrite Hx. simpl. by eapply list_elem_of_lookup_2.
Qed.

Lemma pieces_sublist runes l :
  map ToLower (map (rune_at runes) l) `sublist_of` concat (map (piece runes) l).
Proof.
  induction l as [|i l IH]; simpl; [done|]. unfold snake_piece at 1.
  rewrite <- app_assoc. apply sublist_inserts_l. simpl. by apply sublist_skip.
Qed.

Lemma pieces_length runes l :
  length (concat (map (piece runes) l)) <= 2 * length l.
Proof.
  induction l as [|i l IH]; simpl; [done|]. rewrite length_app. unfold snake_piece at 1.
  rewrite length_app. destruct (boundary runes i); simpl; lia.
Qed.

Lemma pieces_elem_of runes l x :
  x ∈ concat (map (piece runes) l) ->
  x = 95%Z \/ exists i, i ∈ l /\ x = ToLower (rune_at runes i).
Proof.
  induction l as [|i l IH]; simpl; [by intros ?%elem_of_nil|].
  rewrite elem_of_app. intros [Hx|Hx].
  - unfold snake_piece in Hx. apply elem_of_app in Hx as [Hx|Hx].
    + destruct (boundary runes i); [|by apply elem_of_nil in Hx].
      apply list_elem_of_singleton in Hx. by left.
    + apply list_elem_of_singleton in Hx. right. exists i.
      split; [apply list_elem_of_here|done].
  - destruct (IH Hx) as [?|(j & Hj & ->)]; [by left|]. right. exists j.
    split; [by apply list_elem_of_further|done].
Qed.

Lemma toSnake_elem_of runes x :
  x ∈ snake runes -> x = 95%Z \/ exists r, r ∈ runes /\ x = ToLower r.
Proof.
  rewrite toSnake_pieces. intros [?|(i & Hi & ->)]%pieces_elem_of; [by left|].
  right. exists (rune_at runes i). split; [|done].
  apply elem_of_seq in Hi. apply rune_at_elem_of. lia.
Qed.

Lemma pieces_no_boundary runes l :
  (forall i, i ∈ l -> boundary runes i = false) ->
  concat (map (piece runes) l) = map ToLower (map (rune_at runes) l).
Proof.
  induction l as [|i l IH]; intros Hno; simpl; [done|].
  unfold snake_piece at 1. rewrite (Hno i) by apply list_elem_of_here. simpl.
  f_equal. apply IH. intros j Hj. apply Hno. by apply list_elem_of_further.
Qed.

Lemma toSnake_no_boundary runes :
  (forall i, i < length runes -> boundary runes i = false) ->
  snake runes = map ToLower runes.
Proof.
  intros Hno. rewrite toSnake_pieces, pieces_no_boundary.
  - by rewrite rune_at_seq.
  - intros i Hi. apply elem_of_seq in Hi. apply Hno. lia.
Qed.

(** X12: [toSnake] only inserts underscores: the lower-cased runes of
    the input are in the result, all of them and in order, every other
    rune of the result is an underscore, and a result is shorter than
    twice its input. *)
Theorem toSnake_inserts_underscores_only (runes : list Z) :
  map ToLower runes `sublist_of` toSnake IsUpper IsLower ToLower runes
  /\ length (toSnake IsUpper IsLower ToLower runes) <= 2 * length runes - 1
  /\ forall x, x ∈ toSnake IsUpper IsLower ToLower runes -> x = 95%Z \/ exists r, r ∈ runes /\ x = ToLower r.
Proof.
  split; [|split; [|apply toSnake_elem_of]].
  - rewrite toSnake_pieces. rewrite <- (rune_at_seq runes) at 1. apply pieces_sublist.
  - rewrite toSnake_pieces. destruct runes as [|r rest]; [done|].
    change (seq 0 (length (r :: rest))) with (0 :: seq 1 (length rest)).
    change (concat (map (piece (r :: rest)) (0 :: seq 1 (length rest))))
      with ([ToLower r] ++ concat (map (piece (r :: rest)) (seq 1 (length rest)))).
    pose proof (pieces_length (r :: rest) (seq 1 (length rest))) as Hle.
    rewrite length_seq in Hle. rewrite length_app.
    change (length (r :: rest)) with (S (length rest)).
    change (length [ToLower r]) with 1. lia.
Qed.

(** X13: the result starts with the lower-cased first rune of the input
    and ends with its lower-cased last rune: no underscore is put in
    front or at the end. *)
Theorem toSnake_first_and_last_rune (runes : list Z) :
  head (toSnake IsUpper IsLower ToLower runes) = ToLower <$> head runes
  /\ last (toSnake IsUpper IsLower ToLower runes) = ToLower <$> last runes.
Proof.
  rewrite toSnake_pieces. split.
  - destruct runes as [|r rest]; [done|].
    change (seq 0 (length (r :: rest))) with (0 :: seq 1 (length rest)). done.
  - destruct (decide (runes = [])) as [->|Hne]; [done|].
    apply last_is_Some in Hne as [x Hx]. pose proof Hx as Hlast.
    apply last_Some in Hx as (init & ->). rewrite length_app. simpl.
    rewrite Nat.add_1_r, seq_S, map_app, concat_app. simpl.
    rewrite app_nil_r. unfold snake_piece at 2. rewrite app_assoc, last_snoc.
    rewrite Hlast. simpl. f_equal. f_equal. unfold rune_at.
    by rewrite lookup_app_r, Nat.sub_diag.
Qed.

(** X14: an input without an upper-case rune, and an input without a
    lower-case rune (an acronym), get no underscore: the result is the
    input, rune by rune in lower case. *)
Theorem toSnake_single_case (runes : list Z) :
  Forall (fun r => IsUpper r = false) runes \/ Forall (fun r => IsLower r = false) runes ->
  toSnake IsUpper IsLower ToLower runes = map ToLower runes.
Proof.
  intros Hcase. apply toSnake_no_boundary. intros i Hi. unfold snake_boundary.
  destruct Hcase as [Hup|Hlow].
  - rewrite (proj1 (Forall_forall _ _) Hup _ (rune_at_elem_of runes i Hi)).
    by rewrite andb_false_r.
  - destruct (0 <? i)%nat eqn:H0; [|done]. apply Nat.ltb_lt in H0.
    rewrite (proj1 (Forall_forall _ _) Hlow (rune_at runes (i - 1)))
      by (apply rune_at_elem_of; lia).
    destruct (i + 1 <? length runes)%nat eqn:H1.
    + apply Nat.ltb_lt in H1.
      rewrite (proj1 (Forall_forall _ _) Hlow (rune_at runes (i + 1)))
        by (by apply rune_at_elem_of).
      by rewrite andb_false_r.
    + by rewrite andb_false_r.
Qed.

(** X15: when lower-casing turns every rune of the input into one that
    is not upper case, the result holds no upper-case rune. *)
Theorem toSnake_result_has_no_upper_case (runes : list Z) :
  IsUpper 95%Z = false ->
  Forall (fun r => IsUpper (ToLower r) = false) runes ->
  Forall (fun r => IsUpper r = false) (toSnake IsUpper IsLower ToLower runes).
Proof.
  intros Hus Hlow. apply Forall_forall. intros x Hx.
  apply toSnake_elem_of in Hx as [->|(r & Hr & ->)]; [done|].
  by apply (proj1 (Forall_forall _ _) Hlow).
Qed.

(** X16: [toSnake] is idempotent on such inputs: a second pass finds no
    upper-case rune, inserts nothing and changes nothing. *)
Theorem toSnake_idempotent (runes : list Z) :
  IsUpper 95%Z = false ->
  ToLower 95%Z = 95%Z ->
  Forall (fun r => IsUpper (ToLower r) = false /\ ToLower (ToLower r) = ToLower r) runes ->
  toSnake IsUpper IsLower ToLower (toSnake IsUpper IsLower ToLower runes) = toSnake IsUpper IsLower ToLower runes.
Proof.
  intros Hus Hlo Hall.
  rewrite (toSnake_single_case (snake runes)).
  - rewrite <- (map_id (snake runes)) at 2. apply map_ext_in. intros x Hx.
    apply list_elem_of_In, toSnake_elem_of in Hx as [->|(r & Hr & ->)]; [done|].
    by apply (proj1 (Forall_forall _ _) Hall).
  - left. apply Forall_forall. intros x Hx.
    apply toSnake_elem_of in Hx as [->|(r & Hr & ->)]; [done|].
    by apply (proj1 (Forall_forall _ _) Hall).
Qed.

End snake_facts.

Example toSnake_examples :
  toSnake_ascii "HTTPServer" = runes_of "http_server"
  /\ toSnake_ascii "userID" = runes_of "user_id"
  /\ toSnake_ascii "FieldName" = runes_of "field_name"
  /\ toSnake_ascii "getHTTPResponse" = runes_of "get_http_response"
  /\ toSnake_ascii "ID" = runes_of "id"
  /\ toSnake_ascii "" = runes_of "".
Proof. vm_compute. repeat split; reflexivity. Qed.

Lemma toSnake_single_case_witness :
  toSnake_ascii "HTTP" = map ascii_ToLower (runes_of "HTTP").
Proof.
  apply (toSnake_single_case ascii_IsUpper ascii_IsLower ascii_ToLower (runes_of "HTTP")).
  right. vm_compute. repeat constructor.
Defined.

Lemma toSnake_result_has_no_upper_case_witness :
  Forall (fun r => ascii_IsUpper r = false) (toSnake_ascii "userID").
Proof.
  apply (toSnake_result_has_no_upper_case ascii_IsUpper ascii_IsLower ascii_ToLower
           (runes_of "userID")).
  - reflexivity.
  - vm_compute. repeat constructor.
Defined.

Lemma toSnake_idempotent_witness :
  toSnake ascii_IsUpper ascii_IsLower ascii_ToLower (toSnake_ascii "HTTPServer")
  = toSnake_ascii "HTTPServer".
Proof.
  apply (toSnake_idempotent ascii_IsUpper ascii_IsLower ascii_ToLower
           (runes_of "HTTPServer")).
  - reflexivity.
  - reflexivity.
  - vm_compute. repeat constructor.
Defined.

(** ** The require of SecureRequire *)

Section require_facts.

Variables (stat_ok : string -> bool) (LoadFile : string -> option string).

Lemma replace_byte_cons_ne (old : Ascii.ascii) (new : string) (c : Ascii.ascii)
    (s : string) :
  Ascii.eqb c old = false ->
  replace_byte old new (String c s) = String c (replace_byte old new s).
Proof. intros H. simpl. by rewrite H. Qed.

Lemma replace_byte_cons_eq (old : Ascii.ascii) (new : string) (c : Ascii.ascii)
    (s : string) :
  Ascii.eqb c old = true ->
  replace_byte old new (String c s) = (new ++ replace_byte old new s)%string.
Proof. intros H. simpl. by rewrite H. Qed.

Lemma replace_byte_dot_twice (m : string) :
  replace_byte byte_dot "/" (replace_byte byte_dot "/" m) = replace_byte byte_dot "/" m.
Proof.
  induction m as [|c m IH]; [done|].
  destruct (Ascii.eqb c byte_dot) eqn:Hc.
  - rewrite (replace_byte_cons_eq _ _ _ _ Hc).
    change ("/" ++ replace_byte byte_dot "/" m)%string
      with (String (Ascii.ascii_of_nat 47) (replace_byte byte_dot "/" m)).
    rewrite replace_byte_cons_ne by reflexivity. by rewrite IH.
  - rewrite (replace_byte_cons_ne _ _ _ _ Hc).
    rewrite (replace_byte_cons_ne _ _ _ _ Hc). by rewrite IH.
Qed.

Lemma require_search_skips name pre rest :
  Forall (fun q => stat_ok (replace_byte byte_question name q) = false) pre ->
  require_search stat_ok LoadFile name (pre ++ rest)
  = require_search stat_ok LoadFile name rest.
Proof.
  induction 1 as [|q pre Hq _ IH]; simpl; [done|]. by rewrite Hq.
Qed.

(** X17: the [require] of [SecureRequire] tries the valid paths in
    order, with every [?] replaced by the module name, and the first
    path whose file exists decides: its file is loaded, and when loading
    it fails the error is raised and no later path is tried.  The module
    is reported as not found exactly when no path has its file. *)
Theorem require_first_existing_path_decides (name : string) (pre post : list string)
    (path : string) :
  Forall (fun q => stat_ok (replace_byte byte_question name q) = false) pre ->
  (stat_ok (replace_byte byte_question name path) = true ->
     require_search stat_ok LoadFile name (pre ++ path :: post)
     = match LoadFile (replace_byte byte_question name path) with
       | Some err => ReqLoadError (replace_byte byte_question name path) err
       | None => ReqLoaded (replace_byte byte_question name path)
       end)
  /\ require_search stat_ok LoadFile name pre = ReqNotFound name
  /\ (forall paths, require_search stat_ok LoadFile name paths = ReqNotFound name ->
        Forall (fun q => stat_ok (replace_byte byte_question name q) = false) paths).
Proof.
  intros Hpre. split; [|split].
  - intros Hok. rewrite require_search_skips by done. simpl. by rewrite Hok.
  - rewrite <- (app_nil_r pre). by rewrite require_search_skips.
  - intros paths. induction paths as [|q paths IH]; simpl; [by constructor|].
    destruct (stat_ok (replace_byte byte_question name q)) eqn:Hq.
    + by destruct (LoadFile (replace_byte byte_question name q)).
    + intros E. constructor; [done|by apply IH].
Qed.

(** X18: [require] turns the dots of the module name into slashes
    before it looks at the paths, so a name written with dots and the
    same name written with slashes are resolved alike. *)
Theorem require_reads_dots_as_slashes (validPaths : list string) (m : string) :
  require stat_ok LoadFile validPaths (Some m)
  = require stat_ok LoadFile validPaths (Some (replace_byte byte_dot "/" m)).
Proof. unfold require. by rewrite replace_byte_dot_twice. Qed.

End require_facts.

(** a file system with the one file [lib/core/util.lua], which loads *)
Example require_example :
  let stat := fun f => String.eqb f "lib/core/util.lua" in
  let load := fun _ : string => @None string in
  require stat load ["./?.lua"; "lib/?.lua"; "vendor/?.lua"] (Some "core.util")
  = ReqLoaded "lib/core/util.lua"
  /\ require stat load ["./?.lua"; "vendor/?.lua"] (Some "core.util")
     = ReqNotFound "core/util"
  /\ require stat load ["lib/core/util.lua"] (Some "anything") = ReqLoaded "lib/core/util.lua"
  /\ require stat load ["lib/?.lua"] None = ReqArgumentError.
Proof. vm_compute. repeat split; reflexivity. Qed.

Lemma require_first_existing_path_decides_witness :
  require_search (fun f => String.eqb f "lib/core/util.lua") (fun _ => Some "syntax error")
    "core/util" (["./?.lua"] ++ "lib/?.lua" :: ["lib/core/util.lua"])
  = ReqLoadError "lib/core/util.lua" "syntax error".
Proof.
  refine (proj1 (require_first_existing_path_decides
                   (fun f => String.eqb f "lib/core/util.lua") (fun _ => Some "syntax error")
                   "core/util" ["./?.lua"] ["lib/core/util.lua"] "lib/?.lua" _) _).
  - repeat constructor.
  - vm_compute. reflexivity.
Defined.

(** ** configureFromOptions *)

Section configure_facts.

Implicit Types (c : engine_config) (options : list EngineOptions).

Lemma configureFromOptions_snoc c options opt :
  configureFromOptions c (options ++ [opt])
  = configure_step false (configureFromOptions c options) opt.
Proof. unfold configureFromOptions. by rewrite foldl_app. Qed.

Lemma last_naming_snoc sel options opt :
  last_naming sel (options ++ [opt])
  = if decide (sel opt = OtherNaming) then last_naming sel options else Some (sel opt).
Proof.
  unfold last_naming. rewrite map_app, filter_app. simpl map.
  rewrite filter_cons, filter_nil. case_decide as Hopt.
  - rewrite decide_False by done. rewrite last_snoc. done.
  - rewrite decide_True by (by destruct (decide (sel opt = OtherNaming))).
    by rewrite app_nil_r.
Qed.

End configure_facts.

(** X19: [configureFromOptions] calls [OpenLibs] once for every option
    that asks for it, its [openedLibs] guard staying open; the field
    naming, and likewise the method naming, ends as the last option that
    names one of the three naming modes sets it, and stays as it was
    when no option does. *)
Theorem configureFromOptions_last_naming_wins (c : engine_config)
    (options : list EngineOptions) :
  openLibsCalls (configureFromOptions c options)
  = openLibsCalls c + length (filter (fun o => OpenLibs o = true) options)
  /\ FieldNames (configureFromOptions c options)
     = match last_naming FieldNaming options with
       | Some n => apply_naming n (FieldNames c)
       | None => FieldNames c
       end
  /\ MethodNames (configureFromOptions c options)
     = match last_naming MethodNaming options with
       | Some n => apply_naming n (MethodNames c)
       | None => MethodNames c
       end.
Proof.
  induction options as [|opt options IH] using rev_ind.
  - simpl. split; [lia|done].
  - destruct IH as (IH1 & IH2 & IH3).
    rewrite configureFromOptions_snoc, !last_naming_snoc, filter_app, length_app.
    unfold configure_step. simpl. rewrite IH1, IH2, IH3.
    rewrite filter_cons, filter_nil. split; [|split].
    + destruct (OpenLibs opt); simpl; lia.
    + case_decide as Hn; [by rewrite Hn|]. by destruct (FieldNaming opt).
    + case_decide as Hn; [by rewrite Hn|]. by destruct (MethodNaming opt).
Qed.

Example configureFromOptions_example :
  configureFromOptions
    {| openLibsCalls := 0; FieldNames := None; MethodNames := None |}
    [ {| OpenLibs := true; FieldNaming := SnakeCaseNames; MethodNaming := OtherNaming |};
      {| OpenLibs := true; FieldNaming := ExportedNames; MethodNaming := OtherNaming |};
      {| OpenLibs := false; FieldNaming := OtherNaming; MethodNaming := OtherNaming |} ]
  = {| openLibsCalls := 2; FieldNames := Some NamesKeep; MethodNames := None |}.
Proof. reflexivity. Qed.

(** ** loggerForEngine *)

(** X20: [loggerForEngine] leaves the logger it returns in the engine's
    [Meta] under the logger key and changes no other entry, and a
    second call returns that same logger and changes nothing: a logger
    is made at most once for an engine. *)
Theorem loggerForEngine_caches_the_logger (L : Type) (NewWithSource : string -> L)
    (key_Logger key_EngineID : string) (meta : gmap string (meta_value L)) :
  let r := loggerForEngine L NewWithSource key_Logger key_EngineID meta in
  r.2 !! key_Logger = Some (MLog r.1)
  /\ (forall k, k <> key_Logger -> r.2 !! k = meta !! k)
  /\ loggerForEngine L NewWithSource key_Logger key_EngineID r.2 = r.
Proof.
  unfold loggerForEngine.
  destruct (meta !! key_Logger) as [[l|s|]|] eqn:Hk; simpl;
    rewrite ?Hk, ?lookup_insert_eq; repeat split; try done;
    intros k Hne; by rewrite lookup_insert_ne.
Qed.

Example loggerForEngine_names :
  (loggerForEngine string (fun n => n) "logger" "engine_id"
     {[ "engine_id" := MString "engine(main)" ]}).1 = "engine(main)"
  /\ (loggerForEngine string (fun n => n) "logger" "engine_id" ∅).1 = "engine(unknown)"
  /\ (loggerForEngine string (fun n => n) "logger" "engine_id"
        {[ "engine_id" := MOther ]}).1 = "engine(unknown)"
  /\ (loggerForEngine string (fun n => n) "logger" "engine_id"
        {[ "logger" := MLog "custom"; "engine_id" := MString "engine(main)" ]}).1
     = "custom".
Proof. vm_compute. repeat split; reflexivity. Qed.

(** ** Engine.Call *)

Section engine_call_facts.

Variables (GoVal LVal : Type) (LNil : LVal) (ValueFor : GoVal -> LVal)
  (CallByParam : string -> nat -> list LVal -> list LVal -> option string * list LVal).

Lemma stack_pop_snoc (st : list LVal) (x : LVal) :
  stack_pop LVal (st ++ [x]) = Some st /\ stack_top LVal LNil (st ++ [x]) = x.
Proof.
  unfold stack_pop, stack_top. rewrite last_snoc. split; [|done].
  destruct (st ++ [x]) as [|y l] eqn:E; [by destruct st|]. rewrite <- E.
  rewrite length_app. simpl. rewrite Nat.add_sub. by rewrite take_app_length.
Qed.

Lemma collect_returns_fills (k : nat) : forall (base pre suf : list LVal),
  length pre = k ->
  collect_returns LVal LNil k (replicate k None ++ map Some suf) (base ++ pre)
  = Some (map Some (pre ++ suf), base).
Proof.
  induction k as [|i IH]; intros base pre suf Hlen.
  - destruct pre; [|done]. simpl. by rewrite app_nil_r.
  - destruct (decide (pre = [])) as [->|Hne]; [done|].
    apply last_is_Some in Hne as [x Hx]. apply last_Some in Hx as (pre' & ->).
    rewrite length_app in Hlen. simpl in Hlen.
    simpl collect_returns. rewrite app_assoc.
    destruct (stack_pop_snoc (base ++ pre') x) as [-> ->].
    replace (<[i:=Some x]> (replicate (S i) None ++ map Some suf))
      with (replicate i (@None LVal) ++ map Some (x :: suf)).
    + rewrite IH by lia. by rewrite <- app_assoc.
    + rewrite replicate_S_end, <- app_assoc. simpl.
      rewrite (insert_app_r_alt (replicate i None)) by (by rewrite length_replicate).
      by rewrite length_replicate, Nat.sub_diag.
Qed.

(** X21: when the interpreter's call succeeds and leaves the [retCount]
    results on top of the stack, [Engine.Call] returns them in the
    order in which the function returned them (the result pushed last
    is the last of the slice) and takes exactly them off the stack. *)
Theorem Engine_Call_returns_results_in_order (name : string) (params : list GoVal)
    (st base rets : list LVal) :
  CallByParam name (length rets) (map ValueFor params) st = (None, base ++ rets) ->
  Engine_Call GoVal LVal LNil ValueFor CallByParam name (length rets) params st
  = (CallReturns (map Some rets), base).
Proof.
  intros E. unfold Engine_Call. rewrite E.
  pose proof (collect_returns_fills (length rets) base rets [] eq_refl) as H.
  simpl in H. rewrite !app_nil_r in H. by rewrite H.
Qed.

End engine_call_facts.

Lemma Engine_Call_returns_results_in_order_witness :
  Engine_Call nat nat 0 (fun n => n)
    (fun _ _ args st => (None, st ++ [10; 20; 30])) "f" (length [10; 20; 30]) [1; 2] [7]
  = (CallReturns (map Some [10; 20; 30]), [7]).
Proof.
  apply (Engine_Call_returns_results_in_order nat nat 0 (fun n => n)
           (fun _ _ args st => (None, st ++ [10; 20; 30])) "f" [1; 2] [7] [7] [10; 20; 30]).
  reflexivity.
Defined.
